(** * Karger and Karger-Stein minimum cut over a union-find: a shallow embedding

    The development follows [src/karger.hpp].  Vectors are lists read with
    stdpp's lookup [l !! i] and written with [<[i:=x]> l]; an access outside
    the vector (undefined behaviour in the source) makes the embedded
    function return [None].  The integer type parameters ([T], [node_t]) are
    modelled by [nat]: every value stored in those types is an index or a
    count bounded by the number of vertices.  The one computation in
    [double], the split target of Karger-Stein, is carried out on binary
    integers ([N]) with the rounding of IEEE 754 binary64 written out.  The
    thread-local Mersenne twister is an explicit value threaded through the
    calls. *)

From stdpp Require Import base option list numbers.
From Stdlib Require Import Lia Sorted.
From Stdlib Require Floats Uint63.

(* ===================================================================== *)
(** ** Data model *)
(* ===================================================================== *)

(** [struct Edge { node_t tail, head; }] *)
Module Edge.
Record t := mk { tail : nat; head : nat }.
End Edge.

(** [struct EdgesVectorGraph { node_t n; std::vector<Edge> edges; }] *)
Module EdgesVectorGraph.
Record t := mk { n : nat; edges : list Edge.t }.
End EdgesVectorGraph.

(** The random engine: the sequence of raw outputs still to come (once the
    recorded prefix is used up, the outputs are 0). *)
Definition engine := list nat.

(** [std::uniform_int_distribution<>{0, m}(mt)]: a value of [0..m], taken
    from the next raw output; the engine advances. *)
Definition uniform_int (m : nat) (mt : engine) : nat * engine :=
  match mt with
  | [] => (0, [])
  | r :: mt' => (r mod (S m), mt')
  end.

(* ===================================================================== *)
(** ** UnionFind *)
(* ===================================================================== *)

Module UnionFind.

(** [struct Subset { T id, size; }] *)
Record Subset := mkSubset { id : nat; size : nat }.

Record t := mk { subsets : list Subset; nb_subsets : nat }.

(** [UnionFind(T n)]: [n] singletons. *)
Definition init (n : nat) : t :=
  mk ((fun i => mkSubset i 1) <$> seq 0 n) n.

(** First loop of [find]:
    [while (root != subsets[root].id) root = subsets[root].id;]
    [fuel] bounds the number of nodes inspected. *)
Fixpoint find_root (fuel : nat) (s : list Subset) (root : nat) : option nat :=
  match fuel with
  | 0 => None
  | S fuel' =>
      sb ← s !! root;
      if root =? id sb then Some root else find_root fuel' s (id sb)
  end.

(** Second loop of [find]:
    [while (subsets[x].id != root) { id = subsets[x].id; subsets[x].id = root; x = id; }] *)
Fixpoint compress (fuel : nat) (s : list Subset) (x root : nat)
  : option (list Subset) :=
  match fuel with
  | 0 => None
  | S fuel' =>
      sb ← s !! x;
      if id sb =? root then Some s
      else compress fuel' (<[x := mkSubset root (size sb)]> s) (id sb) root
  end.

(** [find(x)]: the root of [x], and the structure after path compression.
    A walk in a forest over [length subsets] nodes inspects at most that
    many nodes, which is the fuel given to both loops. *)
Definition find (uf : t) (x : nat) : option (nat * t) :=
  let fuel := length (subsets uf) in
  root ← find_root fuel (subsets uf) x;
  s' ← compress fuel (subsets uf) x root;
  Some (root, mk s' (nb_subsets uf)).

(** [merge(x, y)].  [--nb_subsets] is the predecessor: in a state reached
    from the constructor two distinct roots exist when it runs, so the
    count is at least 2 and an unsigned [T] does not wrap. *)
Definition merge (uf : t) (x y : nat) : option t :=
  '(i, uf1) ← find uf x;
  '(j, uf2) ← find uf1 y;
  if i =? j then Some uf2
  else
    si ← subsets uf2 !! i;
    sj ← subsets uf2 !! j;
    let s' :=
      if size si <? size sj
      then <[j := mkSubset (id sj) (size sj + size si)]>
             (<[i := mkSubset j (size si)]> (subsets uf2))
      else <[i := mkSubset (id si) (size si + size sj)]>
             (<[j := mkSubset i (size sj)]> (subsets uf2)) in
    Some (mk s' (Nat.pred (nb_subsets uf2))).

(** [connected(x, y)]: [find(x) == find(y)]; both finds compress.  The
    operands are evaluated from left to right. *)
Definition connected (uf : t) (x y : nat) : option (bool * t) :=
  '(i, uf1) ← find uf x;
  '(j, uf2) ← find uf1 y;
  Some (i =? j, uf2).

End UnionFind.

(* ===================================================================== *)
(** ** GraphCut *)
(* ===================================================================== *)

Module GraphCut.

Record t := mk { cut_size : nat; uf : UnionFind.t }.

(** [operator<] *)
Definition lt (a b : t) : bool := cut_size a <? cut_size b.

(** [std::min(a, b)] is [(b < a) ? b : a]. *)
Definition min (a b : t) : t := if lt b a then b else a.

(** The loop of [get_partitions]: vertex [i] is pushed at the back of [P]
    when its [id] field equals the [id] field of vertex 0, of [Q]
    otherwise. *)
Fixpoint partition_loop (s : list UnionFind.Subset) (idx : list nat)
    (P Q : list nat) : option (list nat * list nat) :=
  match idx with
  | [] => Some (P, Q)
  | i :: idx' =>
      si ← s !! i;
      s0 ← s !! 0;
      if UnionFind.id si =? UnionFind.id s0
      then partition_loop s idx' (P ++ [i]) Q
      else partition_loop s idx' P (Q ++ [i])
  end.

(** [get_partitions()]; [uf.subsets[0].size] is read for the [reserve]
    call whatever the number of elements. *)
Definition get_partitions (c : t) : option (list nat * list nat) :=
  let s := UnionFind.subsets (uf c) in
  _ ← s !! 0;
  partition_loop s (seq 0 (length s)) [] [].

End GraphCut.

(* ===================================================================== *)
(** ** The contraction loop and Karger's algorithm *)
(* ===================================================================== *)

(** [std::iter_swap(start, start + d)] on the edge vector. *)
Definition iter_swap (es : list Edge.t) (i j : nat) : option (list Edge.t) :=
  ei ← es !! i;
  ej ← es !! j;
  Some (<[j := ei]> (<[i := ej]> es)).

(** The loop shared by [karger_union_find] (target 2) and by [contract]
    (target [nb_vertices]):

    [for (int m = size(edges) - 1; uf.nb_subsets != k; ++start, --m) {
       iter_swap(start, start + uniform_int_distribution<>{0, m}(mt));
       uf.merge(start->tail, start->head); }]

    [m1] is [m + 1], the number of edges from [start] to the end: when it is
    0 the source draws from the empty range [{0, -1}] and reads past the
    end, which is undefined. *)
Fixpoint contraction_loop (m1 : nat) (k : nat) (es : list Edge.t) (start : nat)
    (uf : UnionFind.t) (mt : engine)
  : option (list Edge.t * nat * UnionFind.t * engine) :=
  if UnionFind.nb_subsets uf =? k then Some (es, start, uf, mt)
  else
    match m1 with
    | 0 => None
    | S m =>
        let '(d, mt') := uniform_int m mt in
        es' ← iter_swap es start (start + d);
        e ← es' !! start;
        uf' ← UnionFind.merge uf (Edge.tail e) (Edge.head e);
        contraction_loop m k es' (S start) uf' mt'
    end.

(** [std::count_if(first, last, [&](auto e){ return !uf.connected(e.tail, e.head); })];
    the structure is captured by reference, so every test compresses. *)
Fixpoint count_if_not_connected (es : list Edge.t) (uf : UnionFind.t)
  : option (nat * UnionFind.t) :=
  match es with
  | [] => Some (0, uf)
  | e :: es' =>
      '(c, uf1) ← UnionFind.connected uf (Edge.tail e) (Edge.head e);
      '(k, uf2) ← count_if_not_connected es' uf1;
      Some (if c : bool then k else S k, uf2)
  end.

(** [karger_union_find(graph)]: the cut, the graph as the call leaves it
    (the parameter is a mutable reference) and the engine. *)
Definition karger_union_find (graph : EdgesVectorGraph.t) (mt : engine)
  : option (GraphCut.t * EdgesVectorGraph.t * engine) :=
  let n := EdgesVectorGraph.n graph in
  let es := EdgesVectorGraph.edges graph in
  '(es', start, uf, mt') ← contraction_loop (length es) 2 es 0 (UnionFind.init n) mt;
  '(c, uf') ← count_if_not_connected (drop start es') uf;
  Some (GraphCut.mk c uf', EdgesVectorGraph.mk n es', mt').

(* ===================================================================== *)
(** ** Karger-Stein *)
(* ===================================================================== *)

(** [struct ContractedGraph : EdgesVectorGraph<node_t> { UnionFind<node_t> uf; }] *)
Module ContractedGraph.
Record t := mk { n : nat; edges : list Edge.t; uf : UnionFind.t }.
End ContractedGraph.

(** [std::copy_if(first, last, back_inserter(edges),
      [&](auto e){ return !uf.connected(e.tail, e.head); })] *)
Fixpoint copy_if_not_connected (es : list Edge.t) (uf : UnionFind.t)
  : option (list Edge.t * UnionFind.t) :=
  match es with
  | [] => Some ([], uf)
  | e :: es' =>
      '(c, uf1) ← UnionFind.connected uf (Edge.tail e) (Edge.head e);
      '(out, uf2) ← copy_if_not_connected es' uf1;
      Some (if c : bool then out else e :: out, uf2)
  end.

(** The lambda [contract(graph, nb_vertices)]: the contracted graph it
    returns, [graph] as the call leaves it (its edge vector is shuffled in
    place, its union-find was copied and is intact) and the engine. *)
Definition contract (graph : ContractedGraph.t) (nb_vertices : nat) (mt : engine)
  : option (ContractedGraph.t * ContractedGraph.t * engine) :=
  let es := ContractedGraph.edges graph in
  '(es', start, uf, mt') ←
    contraction_loop (length es) nb_vertices es 0 (ContractedGraph.uf graph) mt;
  '(out, uf') ← copy_if_not_connected (drop start es') uf;
  Some (ContractedGraph.mk nb_vertices out uf',
        ContractedGraph.mk (ContractedGraph.n graph) es' (ContractedGraph.uf graph),
        mt').

(** The lambda [cut(graph)]. *)
Definition cut (graph : ContractedGraph.t) : GraphCut.t :=
  GraphCut.mk (length (ContractedGraph.edges graph)) (ContractedGraph.uf graph).

(** The nearest [double], ties to even, of the real number [x * 2^-k] given
    by the integer [x] in units of [2^-k]: an integer of at most 53 bits is a
    significand as it stands; of a longer one the 53 leading bits [q] are
    kept, and the [s] bits cut off decide whether [q] is rounded up.  (The
    exponents stay within the range of a double for every [node_t] of at
    most 64 bits.) *)
Definition round_double (x : N) : N :=
  let b := N.log2 x in
  if (b <? 53)%N then x
  else
    let s := (b - 52)%N in
    let q := N.shiftr x s in
    let r := N.land x (N.ones s) in
    let half := N.shiftl 1 (s - 1) in
    if (half <? r)%N || ((r =? half)%N && N.odd q)
    then N.shiftl (q + 1) s else N.shiftl q s.

(** [constexpr double INV_SQRT_2 = 1.0 / std::sqrt(2)]: the double
    [0x1.6a09e667f3bccp-1], in units of [2^-53]. *)
Definition INV_SQRT_2 : N := 0x16a09e667f3bcc.

(** [std::ceil(graph.n * INV_SQRT_2)], in double precision as in the source:
    [graph.n] is converted to a double, the product of the two doubles is
    rounded to a double (here in units of [2^-53]), and [std::ceil] is
    exact. *)
Definition ceil_inv_sqrt2 (n : N) : N :=
  let product := round_double (round_double n * INV_SQRT_2) in
  N.shiftr (product + N.ones 53) 53.

(** [1 + std::ceil(graph.n * INV_SQRT_2)]: the sum is a double again. *)
Definition split_target_N (n : N) : N := round_double (1 + ceil_inv_sqrt2 n).

(** [node_t t = 1 + std::ceil(graph.n * INV_SQRT_2)]: the double is an
    integer, which the conversion to [node_t] keeps. *)
Definition split_target (n : nat) : nat := N.to_nat (split_target_N (N.of_nat n)).

(** The state of the main loop of [karger_stein_union_find]: the caller's
    graph (a const reference), the best cut so far, the stack of pending
    graphs (top first) and the engine. *)
Record ks_state := mk_ks {
  input_graph : EdgesVectorGraph.t;
  best_minimum_cut : GraphCut.t;
  graphs : list ContractedGraph.t;
  ks_mt : engine
}.

(** One iteration of [while (!graphs.empty())]. *)
Definition ks_step (st : ks_state) : option ks_state :=
  match graphs st with
  | [] => Some st
  | graph :: rest =>
      if ContractedGraph.n graph <=? 6 then
        '(leaf, _, mt1) ← contract graph 2 (ks_mt st);
        Some (mk_ks (input_graph st)
                    (GraphCut.min (best_minimum_cut st) (cut leaf)) rest mt1)
      else
        let t := split_target (ContractedGraph.n graph) in
        '(child1, graph1, mt1) ← contract graph t (ks_mt st);
        '(child2, _, mt2) ← contract graph1 t mt1;
        Some (mk_ks (input_graph st) (best_minimum_cut st)
                    (child2 :: child1 :: rest) mt2)
  end.

(** The main loop, for at most [fuel] iterations. *)
Fixpoint ks_loop (fuel : nat) (st : ks_state) : option ks_state :=
  match graphs st with
  | [] => Some st
  | _ :: _ =>
      match fuel with
      | 0 => None
      | S fuel' => st' ← ks_step st; ks_loop fuel' st'
      end
  end.

(** A bound on the iterations spent on a graph of [n] components: a leaf
    costs one, and a graph of more than 6 components costs one plus its two
    children, which have fewer components. *)
Definition ks_weight (n : nat) : nat := 3 ^ n.

Arguments ks_weight : simpl never.

(** The state before the loop: the sentinel [GraphCut{input_graph.n, {{}}}]
    (its union-find is [UnionFind(0)]) and the root task, which holds a copy
    of the input edges and a fresh union-find. *)
Definition ks_init (input : EdgesVectorGraph.t) (mt : engine) : ks_state :=
  let n := EdgesVectorGraph.n input in
  mk_ks input
        (GraphCut.mk n (UnionFind.init 0))
        [ContractedGraph.mk n (EdgesVectorGraph.edges input) (UnionFind.init n)]
        mt.

(** [karger_stein_union_find(input_graph)]: the best cut, the caller's graph
    after the call and the engine. *)
Definition karger_stein_union_find (input : EdgesVectorGraph.t) (mt : engine)
  : option (GraphCut.t * EdgesVectorGraph.t * engine) :=
  st ← ks_loop (ks_weight (EdgesVectorGraph.n input)) (ks_init input mt);
  Some (best_minimum_cut st, input_graph st, ks_mt st).

(* ===================================================================== *)
(** ** Vocabulary of the specification *)
(* ===================================================================== *)

(** Number of elements of [l] that satisfy [p]. *)
Fixpoint count {A} (p : A → bool) (l : list A) : nat :=
  match l with
  | [] => 0
  | x :: l' => (if p x then 1 else 0) + count p l'
  end.

(** [subsets[i].id == i] *)
Definition is_root (s : list UnionFind.Subset) (i : nat) : bool :=
  match s !! i with
  | Some sb => UnionFind.id sb =? i
  | None => false
  end.

Definition count_roots (s : list UnionFind.Subset) : nat :=
  count (is_root s) (seq 0 (length s)).

(** The representative of [x]: what the first loop of [find] computes, with
    no compression. *)
Definition root_of (uf : UnionFind.t) (x : nat) : option nat :=
  UnionFind.find_root (length (UnionFind.subsets uf)) (UnionFind.subsets uf) x.

(** [ancestor s x y]: [y] is met on the walk from [x] along the [id]
    fields (both ends included). *)
Inductive ancestor (s : list UnionFind.Subset) : nat → nat → Prop :=
  | ancestor_here x : ancestor s x x
  | ancestor_up x sb y :
      s !! x = Some sb → UnionFind.id sb ≠ x →
      ancestor s (UnionFind.id sb) y → ancestor s x y.

(** [forest n s R h]: the [id] fields of the [n] records form a forest
    whose roots are the fixed points; [R] names the root of every element
    and [h] grows strictly along the [id] fields. *)
Record forest (n : nat) (s : list UnionFind.Subset) (R h : nat → nat) : Prop := {
  forest_length : length s = n;
  forest_step : ∀ x sb, s !! x = Some sb →
    UnionFind.id sb < n ∧ R (UnionFind.id sb) = R x ∧
    (UnionFind.id sb = x → R x = x) ∧
    (UnionFind.id sb ≠ x → h x < h (UnionFind.id sb))
}.

(** Number of elements whose root is [r]. *)
Definition class_size (n : nat) (R : nat → nat) (r : nat) : nat :=
  count (λ x, R x =? r) (seq 0 n).

(** The invariant of the structure: a forest, [nb_subsets] counts its
    roots, and the [size] field of a root is the size of its subset. *)
Record uf_inv (n : nat) (uf : UnionFind.t) (R h : nat → nat) : Prop := {
  inv_forest : forest n (UnionFind.subsets uf) R h;
  inv_count : UnionFind.nb_subsets uf = count_roots (UnionFind.subsets uf);
  inv_sizes : ∀ r sb, UnionFind.subsets uf !! r = Some sb →
    UnionFind.id sb = r → UnionFind.size sb = class_size n R r
}.

Definition wf (n : nat) (uf : UnionFind.t) : Prop := ∃ R h, uf_inv n uf R h.

(** States obtained from [UnionFind(n)] by calls of [find] and [merge]. *)
Inductive reachable (n : nat) : UnionFind.t → Prop :=
  | reachable_init : reachable n (UnionFind.init n)
  | reachable_find uf x r uf' :
      reachable n uf → UnionFind.find uf x = Some (r, uf') → reachable n uf'
  | reachable_merge uf x y uf' :
      reachable n uf → UnionFind.merge uf x y = Some uf' → reachable n uf'.

(** Number of elements that stand strictly higher than [x]: it bounds the
    length of the walk from [x] to its root. *)
Definition above (n : nat) (h : nat → nat) (x : nat) : nat :=
  count (λ y, h x <? h y) (seq 0 n).

(** Attaching root [l] (the loser) under root [w] (the winner). *)
Definition link (s : list UnionFind.Subset) (w l : nat)
    (sw sl : UnionFind.Subset) : list UnionFind.Subset :=
  <[w := UnionFind.mkSubset (UnionFind.id sw) (UnionFind.size sw + UnionFind.size sl)]>
    (<[l := UnionFind.mkSubset w (UnionFind.size sl)]> s).

(** The roots after the link. *)
Definition merged (R : nat → nat) (w l : nat) : nat → nat :=
  λ z, if R z =? l then w else R z.

(** A height for the forest after the link: the winner stands above the
    loser. *)
Definition raised (h : nat → nat) (w l : nat) : nat → nat :=
  λ z, if z =? w then S (h w + h l) else h z.

(** Number of elements whose representative is [r]. *)
Definition subset_size (uf : UnionFind.t) (r : nat) : nat :=
  count (λ z, bool_decide (root_of uf z = Some r))
        (seq 0 (length (UnionFind.subsets uf))).

(** The state reached from [UnionFind(5)] by [merge(0,1)], [merge(2,3)],
    [merge(1,3)]: element 3 hangs under 2, which hangs under 0. *)
Definition uf_chain : UnionFind.t :=
  UnionFind.mk
    [UnionFind.mkSubset 0 4; UnionFind.mkSubset 0 1; UnionFind.mkSubset 0 2;
     UnionFind.mkSubset 2 1; UnionFind.mkSubset 4 1] 2.

(** Both endpoints of every edge are vertices. *)
Definition in_range (n : nat) (es : list Edge.t) : Prop :=
  ∀ e, e ∈ es → Edge.tail e < n ∧ Edge.head e < n.

(** [a] and [b] are elements of one subset. *)
Definition same_subset (uf : UnionFind.t) (a b : nat) : Prop :=
  ∃ r, root_of uf a = Some r ∧ root_of uf b = Some r.

(** The equivalence generated by [same] and by the edges of [es]. *)
Inductive joined (same : nat → nat → Prop) (es : list Edge.t) : nat → nat → Prop :=
  | joined_same a b : same a b → joined same es a b
  | joined_edge e : e ∈ es → joined same es (Edge.tail e) (Edge.head e)
  | joined_sym a b : joined same es a b → joined same es b a
  | joined_trans a b c : joined same es a b → joined same es b c → joined same es a c.

(** Any two vertices are joined by a chain of edges. *)
Definition connected_graph (g : EdgesVectorGraph.t) : Prop :=
  ∀ u v, u < EdgesVectorGraph.n g → v < EdgesVectorGraph.n g →
         joined eq (EdgesVectorGraph.edges g) u v.

(** What the source assumes of its input: at least two vertices, edges
    between vertices, a connected graph. *)
Definition valid_graph (g : EdgesVectorGraph.t) : Prop :=
  2 ≤ EdgesVectorGraph.n g ∧
  in_range (EdgesVectorGraph.n g) (EdgesVectorGraph.edges g) ∧
  connected_graph g.

(** The graph on [n] vertices with edges [es] is connected once the
    subsets of [uf] are contracted. *)
Definition connected_modulo (n : nat) (uf : UnionFind.t) (es : list Edge.t) : Prop :=
  ∀ u v, u < n → v < n → joined (same_subset uf) es u v.

(** The endpoints of [e] lie in different subsets. *)
Definition crossing (uf : UnionFind.t) (e : Edge.t) : bool :=
  bool_decide (root_of uf (Edge.tail e) ≠ root_of uf (Edge.head e)).

(** The complete graph on 4 vertices. *)
Definition K4 : EdgesVectorGraph.t :=
  EdgesVectorGraph.mk 4
    [Edge.mk 0 1; Edge.mk 0 2; Edge.mk 0 3; Edge.mk 1 2; Edge.mk 1 3; Edge.mk 2 3].

(** A connected graph on 5 vertices. *)
Definition G5 : EdgesVectorGraph.t :=
  EdgesVectorGraph.mk 5 [Edge.mk 0 1; Edge.mk 2 3; Edge.mk 1 3; Edge.mk 1 4].


(** Membership in a literal list, and one edge of a literal graph. *)
Ltac in_list := apply list_elem_of_In; simpl; tauto.

Ltac edge_step a b :=
  first [ apply (joined_edge eq _ (Edge.mk a b)); in_list
        | apply joined_sym; apply (joined_edge eq _ (Edge.mk b a)); in_list ].

(** What holds of every graph on the stack, for an input on [N] vertices:
    its union-find was obtained from [UnionFind(N)], [n] is its number of
    subsets, and its edges connect the contracted graph. *)
Record task_ok (N : nat) (task : ContractedGraph.t) : Prop := {
  task_reachable : reachable N (ContractedGraph.uf task);
  task_n : ContractedGraph.n task = UnionFind.nb_subsets (ContractedGraph.uf task);
  task_two : 2 ≤ ContractedGraph.n task;
  task_range : in_range N (ContractedGraph.edges task);
  task_connected :
    connected_modulo N (ContractedGraph.uf task) (ContractedGraph.edges task)
}.

(** [child] is what [contract(parent, t)] returns when started with engine
    [mt], and [parent'] is [parent] after the call: the loop starts from the
    union-find of [parent] and stops at [cursor] with [t] subsets; the
    union-find of [child] has the partition the loop built, the edges of
    [child] are the edges from [cursor] on whose endpoints lie in different
    subsets, and [parent'] has the union-find of [parent] and the
    rearranged edges. *)
Definition child_of (N t : nat) (parent : ContractedGraph.t) (mt : engine)
    (child parent' : ContractedGraph.t) (mt' : engine) : Prop :=
  ∃ es' cursor uf_loop,
    contraction_loop (length (ContractedGraph.edges parent)) t
      (ContractedGraph.edges parent) 0 (ContractedGraph.uf parent) mt
      = Some (es', cursor, uf_loop, mt') ∧
    es' ≡ₚ ContractedGraph.edges parent ∧
    parent' = ContractedGraph.mk (ContractedGraph.n parent) es' (ContractedGraph.uf parent) ∧
    ContractedGraph.n child = t ∧
    UnionFind.nb_subsets (ContractedGraph.uf child) = t ∧
    reachable N (ContractedGraph.uf child) ∧
    (∀ a, root_of (ContractedGraph.uf child) a = root_of uf_loop a) ∧
    (∀ a b, same_subset (ContractedGraph.uf parent) a b →
            same_subset (ContractedGraph.uf child) a b) ∧
    (∀ i e, i < cursor → es' !! i = Some e →
            same_subset (ContractedGraph.uf child) (Edge.tail e) (Edge.head e)) ∧
    ContractedGraph.edges child
      = List.filter (crossing (ContractedGraph.uf child)) (drop cursor es').

(** A bound on the iterations left for a stack of pending graphs. *)
Definition stack_weight (gs : list ContractedGraph.t) : nat :=
  foldr (λ g w, ks_weight (ContractedGraph.n g) + w) 0 gs.

(** The value [best_minimum_cut] starts from. *)
Definition sentinel (g : EdgesVectorGraph.t) : GraphCut.t :=
  GraphCut.mk (EdgesVectorGraph.n g) (UnionFind.init 0).

(** [c] is a cut of [g]: two subsets, and [cut_size] counts the edges of
    [g] between them. *)
Definition real_cut (g : EdgesVectorGraph.t) (c : GraphCut.t) : Prop :=
  reachable (EdgesVectorGraph.n g) (GraphCut.uf c) ∧
  UnionFind.nb_subsets (GraphCut.uf c) = 2 ∧
  GraphCut.cut_size c = count (crossing (GraphCut.uf c)) (EdgesVectorGraph.edges g).

(** The edges of [g] that [task] no longer holds have their endpoints in
    one subset: for every coarser partition, the crossing edges of [g] are
    those of [task]. *)
Definition accounts (g : EdgesVectorGraph.t) (task : ContractedGraph.t) : Prop :=
  ∀ uf', wf (EdgesVectorGraph.n g) uf' →
    (∀ a b, same_subset (ContractedGraph.uf task) a b → same_subset uf' a b) →
    count (crossing uf') (EdgesVectorGraph.edges g)
    = count (crossing uf') (ContractedGraph.edges task).


(** Every [id] field names a root: all the paths are compressed. *)
Definition flat (s : list UnionFind.Subset) : Prop :=
  ∀ i sb, s !! i = Some sb → is_root s (UnionFind.id sb) = true.

(** The state reached from [UnionFind(4)] by [merge(0,1)] and [merge(2,3)]. *)
Definition uf_pairs : UnionFind.t :=
  UnionFind.mk
    [UnionFind.mkSubset 0 2; UnionFind.mkSubset 0 1;
     UnionFind.mkSubset 2 2; UnionFind.mkSubset 2 1] 2.

(** A rank for the forest after a link: the winner rises above the loser
    when it is not above it already. *)
Definition ranked_up (rk : nat → nat) (w l : nat) : nat → nat :=
  λ z, if z =? w then Nat.max (rk w) (S (rk l)) else rk z.

(** The invariant with a rank [rk] that union by size keeps small: a root
    of rank [k] has at least [2 ^ k] elements. *)
Definition rank_inv (n : nat) (uf : UnionFind.t) (R rk : nat → nat) : Prop :=
  uf_inv n uf R rk ∧ ∀ r, r < n → R r = r → 2 ^ rk r ≤ class_size n R r.

(** Three isolated vertices. *)
Definition three_isolated : EdgesVectorGraph.t := EdgesVectorGraph.mk 3 [].




(** [p] holds of [i], [i + 1], ..., [i + fuel - 1]. *)
Fixpoint all_from (fuel : nat) (i : N) (p : N → bool) : bool :=
  match fuel with
  | 0 => true
  | S fuel' => p i && all_from fuel' (N.succ i) p
  end.

(** Line 147 once more, with the binary64 floats of the kernel in place of
    [round_double]. *)
Definition double_of_N (n : N) : PrimFloat.float :=
  PrimFloat.of_uint63 (Uint63.of_Z (Z.of_N n)).

(** [std::ceil] of a double that is not negative: from [2^52] on a double
    is an integer; below, adding and subtracting [2^52] rounds to an
    integer, which is [x] rounded up or the integer just below it. *)
Definition double_ceil (x : PrimFloat.float) : PrimFloat.float :=
  let two52 := double_of_N (2 ^ 52) in
  if PrimFloat.leb two52 x then x
  else
    let r := PrimFloat.sub (PrimFloat.add x two52) two52 in
    if PrimFloat.ltb r x then PrimFloat.add r (double_of_N 1) else r.

Definition double_INV_SQRT_2 : PrimFloat.float :=
  PrimFloat.div (double_of_N 1) (PrimFloat.sqrt (double_of_N 2)).

Definition double_split_target (n : N) : PrimFloat.float :=
  PrimFloat.add (double_of_N 1)
                (double_ceil (PrimFloat.mul (double_of_N n) double_INV_SQRT_2)).

Definition double_agrees (n : N) : bool :=
  PrimFloat.eqb (double_split_target n) (double_of_N (split_target_N n)).

(* ===================================================================== *)
(** ** Counting *)
(* ===================================================================== *)

Lemma count_le_length {A} (p : A → bool) l : count p l ≤ length l.
Proof. induction l as [|a l IH]; simpl; [lia|]. destruct (p a); lia. Qed.

Lemma count_ext {A} (p : A → bool) q l :
  (∀ x, x ∈ l → p x = q x) → count p l = count q l.
Proof.
  induction l as [|a l IH]; intros Hpq; simpl; [done|].
  rewrite (Hpq a) by left. rewrite IH; [done|].
  intros x Hx. apply Hpq. by right.
Qed.

Lemma count_mono {A} (p : A → bool) q l :
  (∀ x, x ∈ l → p x = true → q x = true) → count p l ≤ count q l.
Proof.
  induction l as [|a l IH]; intros Hpq; simpl; [lia|].
  assert (count p l ≤ count q l) by (apply IH; intros; apply Hpq; [by right|done]).
  destruct (p a) eqn:Hp; [rewrite (Hpq a) by (done || left)|]; destruct (q a); lia.
Qed.

Lemma count_lt {A} (p q : A → bool) l z :
  (∀ x, x ∈ l → p x = true → q x = true) →
  z ∈ l → q z = true → p z = false → count p l < count q l.
Proof.
  induction l as [|a l IH]; intros Hpq Hz Hqz Hpz; [by apply elem_of_nil in Hz|].
  simpl. assert (Hl : ∀ x, x ∈ l → p x = true → q x = true)
    by (intros; apply Hpq; [by right|done]).
  apply elem_of_cons in Hz as [->|Hz].
  - rewrite Hqz, Hpz. pose proof (count_mono p q l Hl). lia.
  - specialize (IH Hl Hz Hqz Hpz).
    destruct (p a) eqn:Hp; [rewrite (Hpq a) by (done || left)|]; destruct (q a); lia.
Qed.

Lemma count_true {A} (l : list A) : count (λ _ : A, true) l = length l.
Proof. induction l; simpl; lia. Qed.

Lemma count_false {A} (p : A → bool) l : (∀ x, x ∈ l → p x = false) → count p l = 0.
Proof.
  induction l as [|a l IH]; intros Hp; simpl; [done|].
  rewrite (Hp a) by left. rewrite IH; [done|]. intros; apply Hp; by right.
Qed.

(** Two predicates that differ at a single point of a duplicate-free list. *)
Lemma count_flip {A} (p q : A → bool) l j :
  NoDup l → j ∈ l → p j = true → q j = false →
  (∀ x, x ∈ l → x ≠ j → p x = q x) → count p l = S (count q l).
Proof.
  induction l as [|a l IH]; intros Hnd Hj Hpj Hqj Hpq; [by apply elem_of_nil in Hj|].
  inversion_clear Hnd as [|? ? Ha Hnd']. simpl.
  apply elem_of_cons in Hj as [->|Hj].
  - rewrite Hpj, Hqj. rewrite (count_ext p q l); [lia|].
    intros x Hx. apply Hpq; [by right|]. intros ->. done.
  - rewrite (Hpq a); [|left|intros ->; done].
    rewrite IH; [lia|done..|]. intros x Hx Hne. apply Hpq; [by right|done].
Qed.

Lemma count_or {A} (p : A → bool) q r l :
  (∀ x, x ∈ l → r x = p x || q x) →
  (∀ x, x ∈ l → p x = true → q x = false) →
  count r l = count p l + count q l.
Proof.
  induction l as [|a l IH]; intros Hr Hd; simpl; [done|].
  rewrite IH by (intros; (apply Hr || apply Hd); [by right|done..]).
  rewrite (Hr a) by left. specialize (Hd a (list_elem_of_here _ _)).
  destruct (p a), (q a); simpl; try lia; by specialize (Hd eq_refl).
Qed.

(* ===================================================================== *)
(** ** Forests *)
(* ===================================================================== *)

Section Forest.
Variables (n : nat) (R h : nat → nat).

Lemma above_lt_n x : x < n → above n h x < n.
Proof.
  intros Hx. unfold above.
  enough (count (λ y, h x <? h y) (seq 0 n) < count (λ _, true) (seq 0 n))
    by (by rewrite count_true, length_seq in *).
  apply count_lt with (z := x); [done| |done|].
  - apply elem_of_seq. lia.
  - apply Nat.ltb_ge. lia.
Qed.

Lemma above_step x y : y < n → h x < h y → above n h y < above n h x.
Proof.
  intros Hy Hxy. unfold above. apply count_lt with (z := y).
  - intros z _ Hz. apply Nat.ltb_lt in Hz. apply Nat.ltb_lt. lia.
  - apply elem_of_seq. lia.
  - by apply Nat.ltb_lt.
  - apply Nat.ltb_ge. lia.
Qed.

Variable s : list UnionFind.Subset.
Hypothesis F : forest n s R h.

Lemma forest_lookup x : x < n → ∃ sb, s !! x = Some sb.
Proof.
  intros Hx. apply lookup_lt_is_Some_2. by rewrite (forest_length _ _ _ _ F).
Qed.

Lemma forest_in_range x sb : s !! x = Some sb → x < n.
Proof. intros Hx. apply lookup_lt_Some in Hx. by rewrite (forest_length _ _ _ _ F) in Hx. Qed.

(** The first loop of [find] reaches [R x] when it may inspect more than
    [above n h x] nodes. *)
Lemma find_root_forest fuel x :
  x < n → above n h x < fuel → UnionFind.find_root fuel s x = Some (R x).
Proof.
  revert x. induction fuel as [|fuel IH]; intros x Hx Hfuel; [lia|].
  destruct (forest_lookup x Hx) as [sb Hsb]. simpl. rewrite Hsb. simpl.
  destruct (forest_step _ _ _ _ F x sb Hsb) as (Hid & HR & Hroot & Hh).
  destruct (Nat.eqb_spec x (UnionFind.id sb)) as [Heq|Hne].
  - by rewrite Hroot.
  - rewrite <- HR. apply IH; [done|].
    assert (above n h (UnionFind.id sb) < above n h x) by (apply above_step; [done|apply Hh; lia]).
    lia.
Qed.

Lemma find_root_forest_n x : x < n → UnionFind.find_root n s x = Some (R x).
Proof. intros Hx. apply find_root_forest; [done|by apply above_lt_n]. Qed.

(** Whatever the first loop returns is a fixed point of [id]. *)
Lemma find_root_is_root fuel x r :
  UnionFind.find_root fuel s x = Some r →
  ∃ sb, s !! r = Some sb ∧ UnionFind.id sb = r.
Proof.
  revert x. induction fuel as [|fuel IH]; intros x Hf; [done|].
  simpl in Hf. destruct (s !! x) as [sb|] eqn:Hsb; [|done]. simpl in Hf.
  destruct (Nat.eqb_spec x (UnionFind.id sb)) as [Heq|Hne].
  - injection Hf as <-. eauto.
  - by apply IH in Hf.
Qed.

Lemma rep_is_root x :
  x < n → ∃ sb, s !! R x = Some sb ∧ UnionFind.id sb = R x.
Proof. intros Hx. eapply find_root_is_root, find_root_forest_n, Hx. Qed.

Lemma rep_lt x : x < n → R x < n.
Proof. intros Hx. destruct (rep_is_root x Hx) as (sb & Hsb & _). by eapply forest_in_range. Qed.

Lemma rep_idem x : x < n → R (R x) = R x.
Proof.
  intros Hx. destruct (rep_is_root x Hx) as (sb & Hsb & Hid).
  by apply (forest_step _ _ _ _ F _ _ Hsb).
Qed.

Lemma root_rep x sb : s !! x = Some sb → UnionFind.id sb = x → R x = x.
Proof. intros Hsb Hid. by apply (forest_step _ _ _ _ F _ _ Hsb). Qed.

Lemma rep_fixed_is_root x sb : s !! x = Some sb → R x = x → UnionFind.id sb = x.
Proof.
  intros Hsb HR. destruct (rep_is_root x (forest_in_range _ _ Hsb)) as (sb' & Hsb' & Hid).
  rewrite HR in Hsb', Hid. congruence.
Qed.

Lemma is_root_rep x : x < n → is_root s x = (R x =? x).
Proof.
  intros Hx. unfold is_root. destruct (forest_lookup x Hx) as [sb Hsb]. rewrite Hsb.
  destruct (Nat.eqb_spec (R x) x) as [HR|HR].
  - apply Nat.eqb_eq. by eapply rep_fixed_is_root.
  - apply Nat.eqb_neq. intros Hid. apply HR. by eapply root_rep.
Qed.

(** An element is its own root or stands strictly below it. *)
Lemma rep_above_aux fuel x :
  x < n → above n h x < fuel → R x = x ∨ h x < h (R x).
Proof.
  revert x. induction fuel as [|fuel IH]; intros x Hx Hfuel; [lia|].
  destruct (forest_lookup x Hx) as [sb Hsb].
  destruct (forest_step _ _ _ _ F x sb Hsb) as (Hid & HR & Hroot & Hh).
  destruct (decide (UnionFind.id sb = x)) as [Heq|Hne]; [left; auto|right].
  specialize (Hh Hne).
  assert (above n h (UnionFind.id sb) < above n h x) by (by apply above_step).
  destruct (IH (UnionFind.id sb)) as [Hr|Hr]; [done|lia|..]; rewrite HR in Hr.
  - by rewrite Hr.
  - lia.
Qed.

Lemma rep_above x : x < n → R x = x ∨ h x < h (R x).
Proof. intros Hx. apply (rep_above_aux (S (above n h x))); [done|lia]. Qed.

Lemma ancestor_rep x y : ancestor s x y → R y = R x.
Proof.
  induction 1 as [|x sb y Hsb Hne _ IH]; [done|].
  rewrite IH. by apply (forest_step _ _ _ _ F _ _ Hsb).
Qed.

Lemma ancestor_above x y : ancestor s x y → h x ≤ h y.
Proof.
  induction 1 as [|x sb y Hsb Hne _ IH]; [done|].
  destruct (forest_step _ _ _ _ F _ _ Hsb) as (_ & _ & _ & Hh). specialize (Hh Hne). lia.
Qed.

Lemma ancestor_in_range x y : x < n → ancestor s x y → y < n.
Proof.
  intros Hx. induction 1 as [|x sb y Hsb Hne _ IH]; [done|].
  apply IH. by apply (forest_step _ _ _ _ F _ _ Hsb).
Qed.

(** The root is met on the walk, and it is the only fixed point met. *)
Lemma ancestor_root_aux fuel x : x < n → above n h x < fuel → ancestor s x (R x).
Proof.
  revert x. induction fuel as [|fuel IH]; intros x Hx Hfuel; [lia|].
  destruct (forest_lookup x Hx) as [sb Hsb].
  destruct (forest_step _ _ _ _ F x sb Hsb) as (Hid & HR & Hroot & Hh).
  destruct (decide (UnionFind.id sb = x)) as [Heq|Hne].
  - rewrite Hroot by done. constructor.
  - eapply ancestor_up; [done..|]. rewrite <- HR. apply IH; [done|].
    assert (above n h (UnionFind.id sb) < above n h x) by (apply above_step; auto). lia.
Qed.

Lemma ancestor_root x : x < n → ancestor s x (R x).
Proof. intros Hx. apply (ancestor_root_aux (S (above n h x))); [done|lia]. Qed.

Lemma ancestor_fixed_point x y sb :
  ancestor s x y → s !! y = Some sb → UnionFind.id sb = y → y = R x.
Proof.
  intros Hanc Hsb Hid. rewrite <- (ancestor_rep _ _ Hanc). symmetry. by eapply root_rep.
Qed.

End Forest.

(* ===================================================================== *)
(** ** [find]: path compression *)
(* ===================================================================== *)

Lemma ancestor_of_root s r sb y :
  s !! r = Some sb → UnionFind.id sb = r → ancestor s r y → y = r.
Proof.
  intros Hsb Hid Hanc. inversion Hanc as [|? sb' ? Hsb' Hne]; [done|].
  congruence.
Qed.

(** The walk from [x] does not read what stands below [x]. *)
Lemma ancestor_frame n R h s s1 low x y :
  forest n s R h →
  (∀ z, low ≤ h z → s1 !! z = s !! z) →
  low ≤ h x → ancestor s x y → ancestor s1 x y.
Proof.
  intros F Hsame Hlow Hanc. induction Hanc as [|x sb y Hsb Hne _ IH]; [constructor|].
  eapply ancestor_up; [by rewrite Hsame|done|].
  apply IH. destruct (forest_step _ _ _ _ F _ _ Hsb) as (_ & _ & _ & Hh).
  specialize (Hh Hne). lia.
Qed.

(** Re-pointing an element to its root keeps the forest and its roots. *)
Lemma forest_repoint n R h s x sb sz :
  forest n s R h → s !! x = Some sb →
  forest n (<[x := UnionFind.mkSubset (R x) sz]> s) R h.
Proof.
  intros F Hsb. pose proof (forest_in_range _ _ _ _ F _ _ Hsb) as Hx.
  split; [by rewrite length_insert, (forest_length _ _ _ _ F)|].
  intros y sby Hy. destruct (decide (x = y)) as [<-|Hne].
  - rewrite list_lookup_insert_eq in Hy by (by eapply lookup_lt_Some).
    injection Hy as <-. simpl.
    split; [by eapply rep_lt|]. split; [by eapply rep_idem|]. split; [done|].
    intros Hr. destruct (rep_above _ _ _ _ F x Hx); [done|lia].
  - rewrite list_lookup_insert_ne in Hy by done. by apply (forest_step _ _ _ _ F).
Qed.

Lemma compress_forest n R h fuel : ∀ s x,
  forest n s R h → x < n → above n h x < fuel →
  ∃ s', UnionFind.compress fuel s x (R x) = Some s' ∧ forest n s' R h ∧
    (∀ y sb, s !! y = Some sb → ∃ sb', s' !! y = Some sb' ∧
       UnionFind.size sb' = UnionFind.size sb ∧
       (UnionFind.id sb' = UnionFind.id sb ∨ UnionFind.id sb' = R y)) ∧
    (∀ y, ancestor s x y → ∃ sb', s' !! y = Some sb' ∧ UnionFind.id sb' = R x).
Proof.
  induction fuel as [|fuel IH]; intros s x F Hx Hfuel; [lia|].
  destruct (forest_lookup _ _ _ _ F x Hx) as [sb Hsb]. simpl. rewrite Hsb. simpl.
  destruct (forest_step _ _ _ _ F x sb Hsb) as (Hid & HR & Hroot & Hh).
  destruct (Nat.eqb_spec (UnionFind.id sb) (R x)) as [Heq|Hne].
  - exists s. split; [done|]. split; [done|]. split; [by eauto|].
    intros y Hanc. inversion Hanc as [|? sb' ? Hsb' Hne' Hanc']; subst.
    + eauto.
    + assert (sb' = sb) as -> by congruence.
      destruct (rep_is_root _ _ _ _ F x Hx) as (sr & Hsr & Hidr).
      rewrite Heq in Hanc'. apply (ancestor_of_root _ _ _ _ Hsr Hidr) in Hanc' as ->. eauto.
  - assert (UnionFind.id sb ≠ x) as Hnr by (intros E; apply Hne; rewrite E; symmetry; auto).
    specialize (Hh Hnr).
    set (s1 := <[x := UnionFind.mkSubset (R x) (UnionFind.size sb)]> s).
    assert (F1 : forest n s1 R h) by (by eapply forest_repoint).
    assert (Hab : above n h (UnionFind.id sb) < fuel).
    { pose proof (above_step n h x (UnionFind.id sb) Hid Hh). lia. }
    destruct (IH s1 (UnionFind.id sb) F1 Hid Hab) as (s' & Hc & F' & Hframe & Hpath).
    rewrite HR in Hc, Hpath. exists s'. split; [done|]. split; [done|].
    assert (Hx1 : s1 !! x = Some (UnionFind.mkSubset (R x) (UnionFind.size sb))).
    { unfold s1. apply list_lookup_insert_eq. by eapply lookup_lt_Some. }
    assert (Hxs : ∃ sb', s' !! x = Some sb' ∧ UnionFind.size sb' = UnionFind.size sb ∧
                    UnionFind.id sb' = R x).
    { destruct (Hframe _ _ Hx1) as (sb' & Hsb' & Hsz & Hi). exists sb'. simpl in *.
      intuition. }
    split.
    + intros y sby Hy. destruct (decide (y = x)) as [->|Hyx].
      * destruct Hxs as (sb' & ? & ? & ?). exists sb'. assert (sby = sb) by congruence.
        subst. auto.
      * apply Hframe. unfold s1. by rewrite list_lookup_insert_ne.
    + intros y Hanc. inversion Hanc as [|? sb' ? Hsb' Hne' Hanc']; subst.
      * destruct Hxs as (sb' & ? & ? & ?). eauto.
      * assert (sb' = sb) as -> by congruence. apply Hpath.
        apply (ancestor_frame n R h s s1 (h (UnionFind.id sb)) _ _ F); [|done|done].
        intros z Hz. unfold s1. apply list_lookup_insert_ne. intros ->. lia.
Qed.

Lemma count_roots_forest n R h s :
  forest n s R h → count_roots s = count (λ x, R x =? x) (seq 0 n).
Proof.
  intros F. unfold count_roots. rewrite (forest_length _ _ _ _ F).
  apply count_ext. intros x Hx. apply elem_of_seq in Hx.
  eapply is_root_rep; [done|lia].
Qed.

(** [find] on a structure that satisfies the invariant. *)
Lemma find_inv n R h uf x :
  uf_inv n uf R h → x < n →
  ∃ uf', UnionFind.find uf x = Some (R x, uf') ∧ uf_inv n uf' R h ∧
    UnionFind.nb_subsets uf' = UnionFind.nb_subsets uf ∧
    (∀ y sb, UnionFind.subsets uf !! y = Some sb →
       ∃ sb', UnionFind.subsets uf' !! y = Some sb' ∧
         UnionFind.size sb' = UnionFind.size sb ∧
         (UnionFind.id sb' = UnionFind.id sb ∨ UnionFind.id sb' = R y)) ∧
    (∀ y, ancestor (UnionFind.subsets uf) x y →
       ∃ sb', UnionFind.subsets uf' !! y = Some sb' ∧ UnionFind.id sb' = R x).
Proof.
  intros [F Hc Hs] Hx. unfold UnionFind.find.
  rewrite (forest_length _ _ _ _ F).
  rewrite (find_root_forest_n _ _ _ _ F x Hx). simpl.
  destruct (compress_forest n R h n (UnionFind.subsets uf) x F Hx)
    as (s' & Hcomp & F' & Hframe & Hpath); [by apply above_lt_n|].
  rewrite Hcomp. simpl. eexists. split; [done|]. split; [|by auto].
  split; simpl; [done| |].
  - by rewrite Hc, (count_roots_forest _ _ _ _ F), (count_roots_forest _ _ _ _ F').
  - intros r sb' Hsb' Hid.
    destruct (forest_lookup _ _ _ _ F r (forest_in_range _ _ _ _ F' _ _ Hsb')) as [sb Hsb].
    destruct (Hframe _ _ Hsb) as (sb'' & Hsb'' & Hsz & _).
    assert (sb'' = sb') as -> by congruence. rewrite Hsz.
    apply (Hs _ _ Hsb). apply (rep_fixed_is_root _ _ _ _ F _ _ Hsb).
    by apply (root_rep _ _ _ _ F' _ _ Hsb').
Qed.

(* ===================================================================== *)
(** ** [merge]: union by size *)
(* ===================================================================== *)

Lemma link_lookup_winner s w l sw sl :
  s !! w = Some sw → w ≠ l →
  link s w l sw sl !! w =
    Some (UnionFind.mkSubset (UnionFind.id sw) (UnionFind.size sw + UnionFind.size sl)).
Proof.
  intros Hw Hne. unfold link. apply list_lookup_insert_eq.
  rewrite length_insert. by eapply lookup_lt_Some.
Qed.

Lemma link_lookup_loser s w l sw sl :
  s !! l = Some sl → w ≠ l →
  link s w l sw sl !! l = Some (UnionFind.mkSubset w (UnionFind.size sl)).
Proof.
  intros Hl Hne. unfold link. rewrite list_lookup_insert_ne by done.
  apply list_lookup_insert_eq. by eapply lookup_lt_Some.
Qed.

Lemma link_lookup_other s w l sw sl z :
  z ≠ w → z ≠ l → link s w l sw sl !! z = s !! z.
Proof. intros. unfold link. by rewrite !list_lookup_insert_ne. Qed.

Lemma link_inv n R h s nb w l sw sl :
  uf_inv n (UnionFind.mk s nb) R h →
  s !! w = Some sw → UnionFind.id sw = w →
  s !! l = Some sl → UnionFind.id sl = l → w ≠ l →
  uf_inv n (UnionFind.mk (link s w l sw sl) (Nat.pred nb)) (merged R w l) (raised h w l)
  ∧ 2 ≤ nb.
Proof.
  intros [F Hc Hs] Hw Hidw Hl Hidl Hne. simpl in *.
  pose proof (forest_in_range _ _ _ _ F _ _ Hw) as Hwn.
  pose proof (forest_in_range _ _ _ _ F _ _ Hl) as Hln.
  pose proof (root_rep _ _ _ _ F _ _ Hw Hidw) as HRw.
  pose proof (root_rep _ _ _ _ F _ _ Hl Hidl) as HRl.
  assert (F' : forest n (link s w l sw sl) (merged R w l) (raised h w l)).
  { split; [unfold link; by rewrite !length_insert, (forest_length _ _ _ _ F)|].
    intros z sb Hz. unfold merged, raised.
    destruct (decide (z = w)) as [->|Hzw]; [|destruct (decide (z = l)) as [->|Hzl]].
    - rewrite link_lookup_winner in Hz by done. injection Hz as <-. simpl.
      rewrite Hidw, HRw, Nat.eqb_refl. destruct (Nat.eqb_spec w l); [done|].
      repeat split; (done || lia).
    - rewrite link_lookup_loser in Hz by done. injection Hz as <-. simpl.
      rewrite HRw, HRl, !Nat.eqb_refl.
      destruct (Nat.eqb_spec w l); [done|]. destruct (Nat.eqb_spec l w); [done|].
      repeat split; (done || lia).
    - rewrite link_lookup_other in Hz by done.
      destruct (forest_step _ _ _ _ F _ _ Hz) as (Hid & HR & Hroot & Hh).
      rewrite HR. split; [done|]. split; [done|]. split.
      + intros E. rewrite Hroot by done. destruct (Nat.eqb_spec z l); done.
      + intros E. specialize (Hh E). destruct (Nat.eqb_spec z w); [done|].
        destruct (Nat.eqb_spec (UnionFind.id sb) w) as [E'|E']; [rewrite E' in Hh|]; lia. }
  assert (Hroots : count (λ x, R x =? x) (seq 0 n)
                   = S (count (λ x, merged R w l x =? x) (seq 0 n))).
  { apply count_flip with (j := l).
    - apply NoDup_seq.
    - apply elem_of_seq. lia.
    - rewrite HRl. apply Nat.eqb_refl.
    - unfold merged. rewrite HRl, Nat.eqb_refl. by apply Nat.eqb_neq.
    - intros z _ Hzl. unfold merged. destruct (Nat.eqb_spec (R z) l) as [E|E]; [|done].
      transitivity false; [|symmetry]; apply Nat.eqb_neq; congruence. }
  split; [split; simpl; [done| |]|].
  - rewrite (count_roots_forest _ _ _ _ F'), Hc, (count_roots_forest _ _ _ _ F), Hroots. done.
  - intros r sb Hr Hidr. unfold class_size.
    destruct (decide (r = w)) as [->|Hrw]; [|destruct (decide (r = l)) as [->|Hrl]].
    + rewrite link_lookup_winner in Hr by done. injection Hr as <-. simpl.
      rewrite (Hs _ _ Hw Hidw), (Hs _ _ Hl Hidl). unfold class_size.
      symmetry. apply count_or.
      * intros z _. unfold merged.
        destruct (Nat.eqb_spec (R z) l) as [E|E]; [by rewrite Nat.eqb_refl, orb_true_r|].
        by rewrite orb_false_r.
      * intros z _ E. apply Nat.eqb_eq in E. apply Nat.eqb_neq. congruence.
    + rewrite link_lookup_loser in Hr by done. injection Hr as <-. simpl in Hidr. done.
    + rewrite link_lookup_other in Hr by done. rewrite (Hs _ _ Hr Hidr). unfold class_size.
      apply count_ext. intros z _. unfold merged.
      destruct (Nat.eqb_spec (R z) l) as [E|E]; [|done].
      transitivity false; [|symmetry]; apply Nat.eqb_neq; congruence.
  - rewrite Hc, (count_roots_forest _ _ _ _ F).
    assert (count (λ x, merged R w l x =? x) (seq 0 n) ≠ 0); [|lia].
    intros E0. assert (Hlt : count (λ _, false) (seq 0 n) < count (λ x, merged R w l x =? x) (seq 0 n)).
    { apply count_lt with (z := w); [done| |..|done].
      - apply elem_of_seq. lia.
      - unfold merged. rewrite HRw. destruct (Nat.eqb_spec w l); [done|apply Nat.eqb_refl]. }
    lia.
Qed.

(** The two [find]s that open [merge] and [connected]. *)
Lemma find_twice n R h uf x y :
  uf_inv n uf R h → x < n → y < n →
  ∃ uf1 uf2, UnionFind.find uf x = Some (R x, uf1) ∧
    UnionFind.find uf1 y = Some (R y, uf2) ∧ uf_inv n uf2 R h ∧
    UnionFind.nb_subsets uf2 = UnionFind.nb_subsets uf ∧
    (∀ z sb, UnionFind.subsets uf !! z = Some sb →
       ∃ sb', UnionFind.subsets uf2 !! z = Some sb' ∧
         UnionFind.size sb' = UnionFind.size sb ∧
         (UnionFind.id sb' = UnionFind.id sb ∨ UnionFind.id sb' = R z)).
Proof.
  intros I Hx Hy.
  destruct (find_inv n R h uf x I Hx) as (uf1 & Hf1 & I1 & Hnb1 & Hfr1 & _).
  destruct (find_inv n R h uf1 y I1 Hy) as (uf2 & Hf2 & I2 & Hnb2 & Hfr2 & _).
  exists uf1, uf2. split; [done|]. split; [done|]. split; [done|]. split; [congruence|].
  intros z sb Hz. destruct (Hfr1 _ _ Hz) as (sb1 & Hz1 & Hsz1 & Hid1).
  destruct (Hfr2 _ _ Hz1) as (sb2 & Hz2 & Hsz2 & Hid2).
  exists sb2. split; [done|]. split; [congruence|].
  destruct Hid1 as [E1|E1], Hid2 as [E2|E2]; rewrite <- ?E1; auto. rewrite E2, E1. auto.
Qed.

Lemma connected_inv n R h uf x y :
  uf_inv n uf R h → x < n → y < n →
  ∃ uf', UnionFind.connected uf x y = Some (R x =? R y, uf') ∧ uf_inv n uf' R h ∧
    UnionFind.nb_subsets uf' = UnionFind.nb_subsets uf.
Proof.
  intros I Hx Hy.
  destruct (find_twice n R h uf x y I Hx Hy) as (uf1 & uf2 & Hf1 & Hf2 & I2 & Hnb & _).
  exists uf2. unfold UnionFind.connected. rewrite Hf1. simpl. rewrite Hf2. simpl. done.
Qed.

(** [merge] of two elements of one subset: only the two compressions. *)
Lemma merge_same n R h uf x y :
  uf_inv n uf R h → x < n → y < n → R x = R y →
  ∃ uf', UnionFind.merge uf x y = Some uf' ∧ uf_inv n uf' R h ∧
    UnionFind.nb_subsets uf' = UnionFind.nb_subsets uf ∧
    (∀ z sb, UnionFind.subsets uf !! z = Some sb →
       ∃ sb', UnionFind.subsets uf' !! z = Some sb' ∧
         UnionFind.size sb' = UnionFind.size sb ∧
         (UnionFind.id sb' = UnionFind.id sb ∨ UnionFind.id sb' = R z)).
Proof.
  intros I Hx Hy HR.
  destruct (find_twice n R h uf x y I Hx Hy) as (uf1 & uf2 & Hf1 & Hf2 & I2 & Hnb & Hfr).
  exists uf2. unfold UnionFind.merge. rewrite Hf1. simpl. rewrite Hf2. simpl.
  rewrite HR, Nat.eqb_refl. done.
Qed.

(** [merge] of two elements of different subsets: the root [l] of the
    smaller subset goes under the root [w] of the other one. *)
Lemma merge_diff n R h uf x y :
  uf_inv n uf R h → x < n → y < n → R x ≠ R y →
  ∃ uf' w l,
    UnionFind.merge uf x y = Some uf' ∧
    ((w = R x ∧ l = R y) ∨ (w = R y ∧ l = R x)) ∧
    (class_size n R (R x) < class_size n R (R y) → w = R y) ∧
    (class_size n R (R y) ≤ class_size n R (R x) → w = R x) ∧
    uf_inv n uf' (merged R w l) (raised h w l) ∧
    S (UnionFind.nb_subsets uf') = UnionFind.nb_subsets uf ∧
    UnionFind.subsets uf' !! l
      = Some (UnionFind.mkSubset w (class_size n R l)) ∧
    UnionFind.subsets uf' !! w
      = Some (UnionFind.mkSubset w (class_size n R w + class_size n R l)).
Proof.
  intros I Hx Hy HR.
  destruct (find_twice n R h uf x y I Hx Hy) as (uf1 & uf2 & Hf1 & Hf2 & I2 & Hnb & Hfr).
  pose proof (inv_forest _ _ _ _ I2) as F2.
  destruct (rep_is_root _ _ _ _ F2 x Hx) as (si & Hsi & Hidi).
  destruct (rep_is_root _ _ _ _ F2 y Hy) as (sj & Hsj & Hidj).
  pose proof (inv_sizes _ _ _ _ I2 _ _ Hsi Hidi) as Hszi.
  pose proof (inv_sizes _ _ _ _ I2 _ _ Hsj Hidj) as Hszj.
  unfold UnionFind.merge. rewrite Hf1. simpl. rewrite Hf2. simpl.
  destruct (Nat.eqb_spec (R x) (R y)) as [|_]; [done|].
  rewrite Hsi, Hsj. simpl. destruct uf2 as [s2 nb2]. simpl in *.
  destruct (Nat.ltb_spec (UnionFind.size si) (UnionFind.size sj)) as [Hlt|Hge].
  - destruct (link_inv n R h s2 nb2 (R y) (R x) sj si I2 Hsj Hidj Hsi Hidi) as [I' Hnb2];
      [congruence|].
    eexists _, (R y), (R x). split; [reflexivity|].
    split; [auto|]. split; [done|]. split; [lia|]. split; [exact I'|].
    split; [simpl; lia|]. rewrite <- Hszi, <- Hszj. cbn [UnionFind.subsets]. split.
    + apply (link_lookup_loser s2 (R y) (R x) sj si); [done|congruence].
    + etrans; [apply (link_lookup_winner s2 (R y) (R x) sj si); (done || congruence)|].
      by rewrite Hidj.
  - destruct (link_inv n R h s2 nb2 (R x) (R y) si sj I2 Hsi Hidi Hsj Hidj) as [I' Hnb2];
      [congruence|].
    eexists _, (R x), (R y). split; [reflexivity|].
    split; [auto|]. split; [lia|]. split; [done|]. split; [exact I'|].
    split; [simpl; lia|]. rewrite <- Hszi, <- Hszj. cbn [UnionFind.subsets]. split.
    + apply (link_lookup_loser s2 (R x) (R y) si sj); [done|congruence].
    + etrans; [apply (link_lookup_winner s2 (R x) (R y) si sj); (done || congruence)|].
      by rewrite Hidi.
Qed.

Lemma merged_coarser R w l a b : R a = R b → merged R w l a = merged R w l b.
Proof. unfold merged. by intros ->. Qed.

(* ===================================================================== *)
(** ** The fresh structure and the reachable states *)
(* ===================================================================== *)

Lemma init_lookup n x sb :
  UnionFind.subsets (UnionFind.init n) !! x = Some sb →
  x < n ∧ sb = UnionFind.mkSubset x 1.
Proof.
  simpl. rewrite list_lookup_fmap. intros Hx.
  destruct (seq 0 n !! x) as [i|] eqn:Hi; [|done].
  apply lookup_seq in Hi as [-> ?]. simpl in Hx. by injection Hx as <-.
Qed.

Lemma count_single n r : r < n → count (λ x, x =? r) (seq 0 n) = 1.
Proof.
  intros Hr. rewrite (count_flip _ (λ _, false) _ r).
  - rewrite count_false; done.
  - apply NoDup_seq.
  - apply elem_of_seq. lia.
  - apply Nat.eqb_refl.
  - done.
  - intros x _ Hx. by apply Nat.eqb_neq.
Qed.

Lemma init_inv n : uf_inv n (UnionFind.init n) (λ x, x) (λ _, 0).
Proof.
  split.
  - split; [simpl; by rewrite length_fmap, length_seq|].
    intros x sb Hx. apply init_lookup in Hx as [Hx ->]. simpl. repeat split; done.
  - unfold count_roots. simpl. rewrite length_fmap, length_seq.
    rewrite (count_ext _ (λ _, true)); [by rewrite count_true, length_seq|].
    intros x Hx. apply elem_of_seq in Hx. unfold is_root.
    rewrite list_lookup_fmap, lookup_seq_lt by lia. simpl. apply Nat.eqb_refl.
  - intros r sb Hr _. apply init_lookup in Hr as [Hr ->]. simpl.
    unfold class_size. by rewrite count_single.
Qed.

Lemma find_root_out_of_range fuel s x :
  length s ≤ x → UnionFind.find_root fuel s x = None.
Proof. intros Hx. destruct fuel; [done|]. simpl. by rewrite lookup_ge_None_2. Qed.

Lemma find_Some_lt uf x r :
  UnionFind.find uf x = Some r → x < length (UnionFind.subsets uf).
Proof.
  unfold UnionFind.find. intros Hf.
  destruct (decide (x < length (UnionFind.subsets uf))); [done|].
  rewrite find_root_out_of_range in Hf by lia. done.
Qed.

Lemma uf_inv_length n uf R h : uf_inv n uf R h → length (UnionFind.subsets uf) = n.
Proof. intros I. apply (forest_length _ _ _ _ (inv_forest _ _ _ _ I)). Qed.

Lemma root_of_inv n uf R h x : uf_inv n uf R h → x < n → root_of uf x = Some (R x).
Proof.
  intros I Hx. unfold root_of. rewrite (uf_inv_length _ _ _ _ I).
  by apply (find_root_forest_n _ _ _ _ (inv_forest _ _ _ _ I)).
Qed.

Lemma root_of_out_of_range uf x :
  length (UnionFind.subsets uf) ≤ x → root_of uf x = None.
Proof. apply find_root_out_of_range. Qed.

(** Two structures over [n] elements with the same roots give the same
    answers. *)
Lemma root_of_same_rep n uf uf' R h h' :
  uf_inv n uf R h → uf_inv n uf' R h' → ∀ x, root_of uf' x = root_of uf x.
Proof.
  intros I I' x. destruct (decide (x < n)).
  - by rewrite (root_of_inv _ _ _ _ _ I), (root_of_inv _ _ _ _ _ I').
  - rewrite !root_of_out_of_range; [done|..];
      rewrite (uf_inv_length _ _ _ _ I) || rewrite (uf_inv_length _ _ _ _ I'); lia.
Qed.

Lemma find_wf n uf x r uf' :
  wf n uf → UnionFind.find uf x = Some (r, uf') → wf n uf' ∧ x < n.
Proof.
  intros (R & h & I) Hf. pose proof (find_Some_lt _ _ _ Hf) as Hx.
  rewrite (uf_inv_length _ _ _ _ I) in Hx.
  destruct (find_inv n R h uf x I Hx) as (uf'' & Hf' & I' & _).
  rewrite Hf in Hf'. injection Hf' as -> ->. split; [by exists R, h|done].
Qed.

Lemma merge_Some_lt n uf x y uf' :
  wf n uf → UnionFind.merge uf x y = Some uf' → x < n ∧ y < n.
Proof.
  intros W Hm. unfold UnionFind.merge in Hm.
  destruct (UnionFind.find uf x) as [[i uf1]|] eqn:Hf1; [|done]. simpl in Hm.
  destruct (UnionFind.find uf1 y) as [[j uf2]|] eqn:Hf2; [|done].
  destruct (find_wf _ _ _ _ _ W Hf1) as [W1 Hx].
  destruct (find_wf _ _ _ _ _ W1 Hf2) as [W2 Hy]. done.
Qed.

Lemma merge_wf n uf x y uf' :
  wf n uf → UnionFind.merge uf x y = Some uf' → wf n uf'.
Proof.
  intros W Hm. destruct (merge_Some_lt _ _ _ _ _ W Hm) as [Hx Hy].
  destruct W as (R & h & I). destruct (decide (R x = R y)) as [E|E].
  - destruct (merge_same n R h uf x y I Hx Hy E) as (uf'' & Hm' & I' & _).
    rewrite Hm in Hm'. injection Hm' as ->. by exists R, h.
  - destruct (merge_diff n R h uf x y I Hx Hy E) as (uf'' & w & l & Hm' & _ & _ & _ & I' & _).
    rewrite Hm in Hm'. injection Hm' as ->. by eexists _, _.
Qed.

Lemma reachable_wf n uf : reachable n uf → wf n uf.
Proof.
  induction 1 as [|uf x r uf' _ IH Hf|uf x y uf' _ IH Hm].
  - eexists _, _. apply init_inv.
  - by destruct (find_wf _ _ _ _ _ IH Hf).
  - by eapply merge_wf.
Qed.

(* ===================================================================== *)
(** ** The union-find claims *)
(* ===================================================================== *)

Lemma subset_size_inv n uf R h r :
  uf_inv n uf R h → subset_size uf r = class_size n R r.
Proof.
  intros I. unfold subset_size, class_size. rewrite (uf_inv_length _ _ _ _ I).
  apply count_ext. intros z Hz. apply elem_of_seq in Hz.
  rewrite (root_of_inv _ _ _ _ _ I) by lia.
  destruct (Nat.eqb_spec (R z) r) as [->|E].
  - by apply bool_decide_eq_true.
  - apply bool_decide_eq_false. congruence.
Qed.

Lemma find_of_root n uf R h r sb :
  uf_inv n uf R h → UnionFind.subsets uf !! r = Some sb → UnionFind.id sb = r →
  UnionFind.find uf r = Some (r, uf).
Proof.
  intros I Hr Hid. pose proof (inv_forest _ _ _ _ I) as F.
  pose proof (forest_in_range _ _ _ _ F _ _ Hr) as Hrn.
  unfold UnionFind.find. rewrite (uf_inv_length _ _ _ _ I).
  rewrite (find_root_forest_n _ _ _ _ F r Hrn), (root_rep _ _ _ _ F _ _ Hr Hid). simpl.
  destruct n as [|n']; [lia|]. simpl. rewrite Hr. simpl. rewrite Hid, Nat.eqb_refl. simpl.
  by destruct uf.
Qed.

Lemma is_root_true s r :
  is_root s r = true ↔ ∃ sb, s !! r = Some sb ∧ UnionFind.id sb = r.
Proof.
  unfold is_root. destruct (s !! r) as [sb|]; split.
  - intros E%Nat.eqb_eq. eauto.
  - intros (sb' & [= <-] & E). by apply Nat.eqb_eq.
  - done.
  - by intros (? & ? & _).
Qed.

Lemma reachable_chain : reachable 5 uf_chain.
Proof.
  pose (U := UnionFind.mkSubset).
  apply (reachable_merge 5 (UnionFind.mk [U 0 2; U 0 1; U 2 2; U 2 1; U 4 1] 3) 1 3);
    [|reflexivity].
  apply (reachable_merge 5 (UnionFind.mk [U 0 2; U 0 1; U 2 1; U 3 1; U 4 1] 4) 2 3);
    [|reflexivity].
  apply (reachable_merge 5 (UnionFind.init 5) 0 1); [|reflexivity].
  apply reachable_init.
Qed.

(** Claim C8.  In every state reached from [UnionFind(n)] by finds and
    merges, the number of indices [i] with [subsets[i].id == i] equals
    [nb_subsets], and the parent chain of every element ends at such a root
    (which is what the root walk of [find] returns); in the fresh state
    [nb_subsets == n] and [find(x) == x] for every [x] below [n]. *)
Theorem unionfind_invariant n uf :
  reachable n uf →
  length (UnionFind.subsets uf) = n ∧
  count_roots (UnionFind.subsets uf) = UnionFind.nb_subsets uf ∧
  (∀ x, x < n → ∃ r, root_of uf x = Some r ∧
      ancestor (UnionFind.subsets uf) x r ∧ is_root (UnionFind.subsets uf) r = true) ∧
  UnionFind.nb_subsets (UnionFind.init n) = n ∧
  (∀ x, x < n → UnionFind.find (UnionFind.init n) x = Some (x, UnionFind.init n)).
Proof.
  intros Hr. destruct (reachable_wf _ _ Hr) as (R & h & I).
  pose proof (inv_forest _ _ _ _ I) as F.
  split; [by eapply uf_inv_length|]. split; [symmetry; apply (inv_count _ _ _ _ I)|].
  split; [|split; [done|]].
  - intros x Hx. exists (R x). split; [by eapply root_of_inv|].
    split; [by eapply ancestor_root|]. apply is_root_true. by eapply rep_is_root.
  - intros x Hx.
    apply (find_of_root n _ _ _ x (UnionFind.mkSubset x 1) (init_inv n)); [|done].
    simpl. by rewrite list_lookup_fmap, lookup_seq_lt.
Qed.

Lemma unionfind_invariant_witness :
  length (UnionFind.subsets uf_chain) = 5 ∧
  count_roots (UnionFind.subsets uf_chain) = UnionFind.nb_subsets uf_chain ∧
  (∀ x, x < 5 → ∃ r, root_of uf_chain x = Some r ∧
      ancestor (UnionFind.subsets uf_chain) x r ∧
      is_root (UnionFind.subsets uf_chain) r = true) ∧
  UnionFind.nb_subsets (UnionFind.init 5) = 5 ∧
  (∀ x, x < 5 → UnionFind.find (UnionFind.init 5) x = Some (x, UnionFind.init 5)).
Proof. apply (unionfind_invariant 5 uf_chain). exact reachable_chain. Defined.

(** Claim C7.  In a reachable state, [find(x)] returns the root of the tree
    of [x], the only ancestor [r] of [x] with [id == r]; a second [find] on
    the result returns it again; afterwards every node met on the walk from
    [x] points to that root, and the representative of every element, hence
    the partition, and [nb_subsets] are what they were. *)
Theorem find_spec n uf x :
  reachable n uf → x < n →
  ∃ r uf',
    UnionFind.find uf x = Some (r, uf') ∧
    ancestor (UnionFind.subsets uf) x r ∧
    is_root (UnionFind.subsets uf) r = true ∧
    (∀ r', ancestor (UnionFind.subsets uf) x r' →
           is_root (UnionFind.subsets uf) r' = true → r' = r) ∧
    UnionFind.find uf' r = Some (r, uf') ∧
    (∀ y, ancestor (UnionFind.subsets uf) x y →
          ∃ sb, UnionFind.subsets uf' !! y = Some sb ∧ UnionFind.id sb = r) ∧
    (∀ y, root_of uf' y = root_of uf y) ∧
    UnionFind.nb_subsets uf' = UnionFind.nb_subsets uf.
Proof.
  intros Hr Hx. destruct (reachable_wf _ _ Hr) as (R & h & I).
  pose proof (inv_forest _ _ _ _ I) as F.
  destruct (find_inv n R h uf x I Hx) as (uf' & Hf & I' & Hnb & _ & Hpath).
  exists (R x), uf'. split; [done|]. split; [by eapply ancestor_root|].
  split; [apply is_root_true; by eapply rep_is_root|].
  split; [|split; [|split; [done|split; [|done]]]].
  - intros r' Hanc (sb & Hsb & Hid)%is_root_true. by eapply ancestor_fixed_point.
  - destruct (rep_is_root _ _ _ _ (inv_forest _ _ _ _ I') x Hx) as (sb & Hsb & Hid).
    by eapply find_of_root.
  - by eapply root_of_same_rep.
Qed.

Lemma find_spec_witness :
  ∃ r uf',
    UnionFind.find uf_chain 3 = Some (r, uf') ∧
    ancestor (UnionFind.subsets uf_chain) 3 r ∧
    is_root (UnionFind.subsets uf_chain) r = true ∧
    (∀ r', ancestor (UnionFind.subsets uf_chain) 3 r' →
           is_root (UnionFind.subsets uf_chain) r' = true → r' = r) ∧
    UnionFind.find uf' r = Some (r, uf') ∧
    (∀ y, ancestor (UnionFind.subsets uf_chain) 3 y →
          ∃ sb, UnionFind.subsets uf' !! y = Some sb ∧ UnionFind.id sb = r) ∧
    (∀ y, root_of uf' y = root_of uf_chain y) ∧
    UnionFind.nb_subsets uf' = UnionFind.nb_subsets uf_chain.
Proof. apply (find_spec 5 uf_chain 3); [exact reachable_chain|lia]. Defined.

Lemma count_app {A} (p : A → bool) l1 l2 : count p (l1 ++ l2) = count p l1 + count p l2.
Proof. induction l1 as [|a l1 IH]; simpl; [done|]. rewrite IH. lia. Qed.

Lemma count_Permutation {A} (p : A → bool) l1 l2 : l1 ≡ₚ l2 → count p l1 = count p l2.
Proof. induction 1; simpl; lia. Qed.

(** Claim C6 (amended).  In a reachable state, [merge(x, y)] on two elements
    of one subset changes neither [nb_subsets], nor a [size] field, nor the
    representative of any element: it only re-points elements to their own
    root (the compression of the two finds).  On two elements of different
    subsets, the root [l] of the subset that is not larger becomes a child
    of the root [w] of the other one (on a tie, the root of [y] goes under
    the root of [x]), the [size] of [w] becomes the sum of the two subset
    sizes, the elements of the subset of [l] get [w] as representative, and
    [nb_subsets] decreases by one. *)
Theorem merge_spec n uf x y :
  reachable n uf → x < n → y < n →
  ∃ rx ry uf',
    root_of uf x = Some rx ∧ root_of uf y = Some ry ∧
    UnionFind.merge uf x y = Some uf' ∧
    (rx = ry →
       UnionFind.nb_subsets uf' = UnionFind.nb_subsets uf ∧
       (∀ z, root_of uf' z = root_of uf z) ∧
       (∀ z sb, UnionFind.subsets uf !! z = Some sb →
          ∃ sb', UnionFind.subsets uf' !! z = Some sb' ∧
            UnionFind.size sb' = UnionFind.size sb ∧
            (UnionFind.id sb' = UnionFind.id sb ∨
             root_of uf z = Some (UnionFind.id sb')))) ∧
    (rx ≠ ry →
       ∃ w l sw sl,
         ((w = rx ∧ l = ry) ∨ (w = ry ∧ l = rx)) ∧
         UnionFind.subsets uf !! w = Some sw ∧ UnionFind.subsets uf !! l = Some sl ∧
         UnionFind.size sw = subset_size uf w ∧ UnionFind.size sl = subset_size uf l ∧
         UnionFind.size sl ≤ UnionFind.size sw ∧
         (UnionFind.size sl = UnionFind.size sw → w = rx) ∧
         UnionFind.subsets uf' !! l = Some (UnionFind.mkSubset w (UnionFind.size sl)) ∧
         UnionFind.subsets uf' !! w
           = Some (UnionFind.mkSubset w (UnionFind.size sw + UnionFind.size sl)) ∧
         (∀ z r, root_of uf z = Some r →
                 root_of uf' z = Some (if r =? l then w else r)) ∧
         S (UnionFind.nb_subsets uf') = UnionFind.nb_subsets uf).
Proof.
  intros Hr Hx Hy. destruct (reachable_wf _ _ Hr) as (R & h & I).
  pose proof (inv_forest _ _ _ _ I) as F.
  exists (R x), (R y). destruct (decide (R x = R y)) as [E|E].
  - destruct (merge_same n R h uf x y I Hx Hy E) as (uf' & Hm & I' & Hnb & Hfr).
    exists uf'. split; [by eapply root_of_inv|]. split; [by eapply root_of_inv|].
    split; [done|]. split; [|done]. intros _. split; [done|].
    split; [by eapply root_of_same_rep|].
    intros z sb Hz. destruct (Hfr _ _ Hz) as (sb' & Hz' & Hsz & Hid).
    exists sb'. split; [done|]. split; [done|]. destruct Hid as [Hid|Hid]; [by left|right].
    rewrite Hid. eapply root_of_inv; [done|]. by eapply forest_in_range.
  - destruct (merge_diff n R h uf x y I Hx Hy E)
      as (uf' & w & l & Hm & Hwl & Hlt & Hge & I' & Hnb & Hl' & Hw').
    exists uf'. split; [by eapply root_of_inv|]. split; [by eapply root_of_inv|].
    split; [done|]. split; [done|]. intros _.
    assert (∃ sw, UnionFind.subsets uf !! w = Some sw ∧ UnionFind.id sw = w) as (sw & Hsw & Hidw).
    { destruct Hwl as [[-> _]|[-> _]]; by eapply rep_is_root. }
    assert (∃ sl, UnionFind.subsets uf !! l = Some sl ∧ UnionFind.id sl = l) as (sl & Hsl & Hidl).
    { destruct Hwl as [[_ ->]|[_ ->]]; by eapply rep_is_root. }
    pose proof (inv_sizes _ _ _ _ I _ _ Hsw Hidw) as Hszw.
    pose proof (inv_sizes _ _ _ _ I _ _ Hsl Hidl) as Hszl.
    exists w, l, sw, sl. rewrite !(subset_size_inv _ _ _ _ _ I), Hszw, Hszl.
    split; [done|]. split; [done|]. split; [done|]. split; [done|]. split; [done|].
    split; [|split; [|split; [done|split; [done|split; [|done]]]]].
    + destruct Hwl as [[-> ->]|[-> ->]]; [|lia].
      destruct (Nat.lt_ge_cases (class_size n R (R x)) (class_size n R (R y))) as [C|C]; [|done].
      specialize (Hlt C). congruence.
    + intros Htie. destruct Hwl as [[-> ->]|[-> ->]]; [done|]. apply Hge. lia.
    + intros z r Hz. destruct (decide (z < n)) as [Hzn|Hzn].
      * rewrite (root_of_inv _ _ _ _ _ I) in Hz by done. injection Hz as <-.
        by rewrite (root_of_inv _ _ _ _ _ I').
      * rewrite root_of_out_of_range in Hz; [done|]. rewrite (uf_inv_length _ _ _ _ I). lia.
Qed.

Lemma merge_spec_witness :
  ∃ rx ry uf',
    root_of uf_chain 3 = Some rx ∧ root_of uf_chain 4 = Some ry ∧
    UnionFind.merge uf_chain 3 4 = Some uf' ∧
    (rx = ry →
       UnionFind.nb_subsets uf' = UnionFind.nb_subsets uf_chain ∧
       (∀ z, root_of uf' z = root_of uf_chain z) ∧
       (∀ z sb, UnionFind.subsets uf_chain !! z = Some sb →
          ∃ sb', UnionFind.subsets uf' !! z = Some sb' ∧
            UnionFind.size sb' = UnionFind.size sb ∧
            (UnionFind.id sb' = UnionFind.id sb ∨
             root_of uf_chain z = Some (UnionFind.id sb')))) ∧
    (rx ≠ ry →
       ∃ w l sw sl,
         ((w = rx ∧ l = ry) ∨ (w = ry ∧ l = rx)) ∧
         UnionFind.subsets uf_chain !! w = Some sw ∧
         UnionFind.subsets uf_chain !! l = Some sl ∧
         UnionFind.size sw = subset_size uf_chain w ∧
         UnionFind.size sl = subset_size uf_chain l ∧
         UnionFind.size sl ≤ UnionFind.size sw ∧
         (UnionFind.size sl = UnionFind.size sw → w = rx) ∧
         UnionFind.subsets uf' !! l = Some (UnionFind.mkSubset w (UnionFind.size sl)) ∧
         UnionFind.subsets uf' !! w
           = Some (UnionFind.mkSubset w (UnionFind.size sw + UnionFind.size sl)) ∧
         (∀ z r, root_of uf_chain z = Some r →
                 root_of uf' z = Some (if r =? l then w else r)) ∧
         S (UnionFind.nb_subsets uf') = UnionFind.nb_subsets uf_chain).
Proof. apply (merge_spec 5 uf_chain 3 4); [exact reachable_chain|lia|lia]. Defined.

(** Claim C6 as stated fails: in the reachable state [uf_chain], elements 3
    and 0 are in one subset, yet [merge(3, 0)] changes the structure (the
    [id] of 3 goes from 2 to 0), and [get_partitions] tells the difference. *)
Lemma merge_same_subset_not_noop :
  reachable 5 uf_chain ∧ root_of uf_chain 3 = root_of uf_chain 0 ∧
  ∃ uf', UnionFind.merge uf_chain 3 0 = Some uf' ∧ uf' ≠ uf_chain ∧
    UnionFind.subsets uf_chain !! 3 = Some (UnionFind.mkSubset 2 1) ∧
    UnionFind.subsets uf' !! 3 = Some (UnionFind.mkSubset 0 1) ∧
    GraphCut.get_partitions (GraphCut.mk 1 uf_chain) = Some ([0; 1; 2], [3; 4]) ∧
    GraphCut.get_partitions (GraphCut.mk 1 uf') = Some ([0; 1; 2; 3], [4]).
Proof.
  split; [exact reachable_chain|]. split; [reflexivity|].
  eexists. split; [vm_compute; reflexivity|]. repeat split; discriminate.
Qed.

(* ===================================================================== *)
(** ** Graphs, connectivity and crossing edges *)
(* ===================================================================== *)

Lemma same_subset_inv n uf R h a b :
  uf_inv n uf R h → same_subset uf a b ↔ a < n ∧ b < n ∧ R a = R b.
Proof.
  intros I. unfold same_subset. split.
  - intros (r & Ha & Hb).
    assert (a < n) as Han.
    { destruct (decide (a < n)); [done|]. rewrite root_of_out_of_range in Ha; [done|].
      rewrite (uf_inv_length _ _ _ _ I). lia. }
    assert (b < n) as Hbn.
    { destruct (decide (b < n)); [done|]. rewrite root_of_out_of_range in Hb; [done|].
      rewrite (uf_inv_length _ _ _ _ I). lia. }
    rewrite (root_of_inv _ _ _ _ a I) in Ha by done.
    rewrite (root_of_inv _ _ _ _ b I) in Hb by done. split; [done|]. split; [done|].
    congruence.
  - intros (Ha & Hb & E). exists (R a).
    rewrite !(root_of_inv _ _ _ _ _ I) by done. by rewrite E.
Qed.

Lemma crossing_inv n uf R h e :
  uf_inv n uf R h → Edge.tail e < n → Edge.head e < n →
  crossing uf e = negb (R (Edge.tail e) =? R (Edge.head e)).
Proof.
  intros I Ht Hh. unfold crossing. rewrite !(root_of_inv _ _ _ _ _ I) by done.
  destruct (Nat.eqb_spec (R (Edge.tail e)) (R (Edge.head e))) as [E|E]; simpl.
  - apply bool_decide_eq_false. intros C. apply C. by rewrite E.
  - apply bool_decide_eq_true. congruence.
Qed.

Lemma crossing_same_subset uf e :
  same_subset uf (Edge.tail e) (Edge.head e) → crossing uf e = false.
Proof.
  intros (r & Ha & Hb). unfold crossing. apply bool_decide_eq_false. rewrite Ha, Hb. auto.
Qed.

Lemma joined_mono (same same' : nat → nat → Prop) es es' u v :
  (∀ a b, same a b → same' a b) →
  (∀ e, e ∈ es → e ∈ es' ∨ same' (Edge.tail e) (Edge.head e)) →
  joined same es u v → joined same' es' u v.
Proof.
  intros Hs He. induction 1 as [a b H|e H|a b _ IH|a b c _ IH1 _ IH2].
  - apply joined_same. auto.
  - destruct (He e H); [by apply joined_edge|by apply joined_same].
  - by apply joined_sym.
  - by eapply joined_trans.
Qed.

Lemma joined_no_edge uf u v :
  joined (same_subset uf) [] u v → same_subset uf u v.
Proof.
  induction 1 as [a b H|e H|a b _ IH|a b c _ IH1 _ IH2].
  - done.
  - by apply elem_of_nil in H.
  - destruct IH as (r & ? & ?). by exists r.
  - destruct IH1 as (r & ? & ?), IH2 as (r' & ? & ?). exists r. split; [done|]. congruence.
Qed.

(** One subset only when all the elements are together. *)
Lemma all_same_one_subset n uf :
  wf n uf → 1 ≤ n → (∀ u v, u < n → v < n → same_subset uf u v) →
  UnionFind.nb_subsets uf = 1.
Proof.
  intros (R & h & I) Hn Hall. pose proof (inv_forest _ _ _ _ I) as F.
  rewrite (inv_count _ _ _ _ I), (count_roots_forest _ _ _ _ F).
  rewrite (count_ext _ (λ x, x =? R 0)).
  - apply count_single. eapply rep_lt; [done|lia].
  - intros z Hz. apply elem_of_seq in Hz.
    assert (R z = R 0) as E.
    { apply (same_subset_inv _ _ _ _ z 0 I). apply Hall; lia. }
    rewrite E. destruct (Nat.eqb_spec z (R 0)) as [Hz0|Hne].
    + rewrite <- Hz0. apply Nat.eqb_refl.
    + apply Nat.eqb_neq. congruence.
Qed.

(** What the loops use of [merge]. *)
Lemma merge_loop_step n uf x y :
  wf n uf → x < n → y < n →
  ∃ uf', UnionFind.merge uf x y = Some uf' ∧ wf n uf' ∧
    (∀ a b, same_subset uf a b → same_subset uf' a b) ∧
    same_subset uf' x y ∧
    (UnionFind.nb_subsets uf' = UnionFind.nb_subsets uf ∨
     S (UnionFind.nb_subsets uf') = UnionFind.nb_subsets uf).
Proof.
  intros (R & h & I) Hx Hy. destruct (decide (R x = R y)) as [E|E].
  - destruct (merge_same n R h uf x y I Hx Hy E) as (uf' & Hm & I' & Hnb & _).
    exists uf'. split; [done|]. split; [by exists R, h|].
    split; [|split; [|by left]].
    + intros a b. by rewrite (same_subset_inv _ _ _ _ _ _ I), (same_subset_inv _ _ _ _ _ _ I').
    + by apply (same_subset_inv _ _ _ _ _ _ I').
  - destruct (merge_diff n R h uf x y I Hx Hy E)
      as (uf' & w & l & Hm & Hwl & _ & _ & I' & Hnb & _).
    exists uf'. split; [done|]. split; [by eexists _, _|].
    split; [|split; [|by right]].
    + intros a b. rewrite (same_subset_inv _ _ _ _ _ _ I), (same_subset_inv _ _ _ _ _ _ I').
      intros (? & ? & Hab). unfold merged. by rewrite Hab.
    + apply (same_subset_inv _ _ _ _ _ _ I'). split; [done|]. split; [done|].
      unfold merged. destruct Hwl as [[-> ->]|[-> ->]]; rewrite Nat.eqb_refl;
        destruct (Nat.eqb_spec (R x) (R y)); destruct (Nat.eqb_spec (R y) (R x)); congruence.
Qed.

Lemma connected_loop_step n uf x y :
  wf n uf → x < n → y < n →
  ∃ uf', UnionFind.connected uf x y = Some (negb (bool_decide (root_of uf x ≠ root_of uf y)), uf') ∧
    wf n uf' ∧ UnionFind.nb_subsets uf' = UnionFind.nb_subsets uf ∧
    (∀ a, root_of uf' a = root_of uf a).
Proof.
  intros (R & h & I) Hx Hy.
  destruct (connected_inv n R h uf x y I Hx Hy) as (uf' & Hc & I' & Hnb).
  exists uf'. split; [|split; [by exists R, h|split; [done|by eapply root_of_same_rep]]].
  rewrite Hc. do 2 f_equal. rewrite !(root_of_inv _ _ _ _ _ I) by done.
  destruct (Nat.eqb_spec (R x) (R y)) as [E|E].
  - rewrite bool_decide_eq_false_2; [done|]. rewrite E. intros C. by apply C.
  - rewrite bool_decide_eq_true_2; [done|congruence].
Qed.

(* ===================================================================== *)
(** ** The contraction loop *)
(* ===================================================================== *)

Lemma uniform_int_le m mt d mt' : uniform_int m mt = (d, mt') → d ≤ m.
Proof.
  destruct mt as [|r mt0]; simpl; intros [= <- <-]; [lia|].
  pose proof (Nat.mod_upper_bound r (S m)). lia.
Qed.

(** The target is met already: no iteration, nothing moves. *)
Lemma contraction_loop_done m1 k es start uf mt :
  UnionFind.nb_subsets uf = k →
  contraction_loop m1 k es start uf mt = Some (es, start, uf, mt).
Proof. intros <-. destruct m1; simpl; by rewrite Nat.eqb_refl. Qed.

Lemma iter_swap_spec (es : list Edge.t) i d ei ej :
  es !! i = Some ei → es !! (i + d) = Some ej →
  ∃ es', iter_swap es i (i + d) = Some es' ∧
    es' ≡ₚ es ∧ es' !! i = Some ej ∧
    (∀ j, j < i → es' !! j = es !! j) ∧
    drop i es' ≡ₚ drop i es.
Proof.
  intros Hi Hj. unfold iter_swap. rewrite Hi, Hj. simpl. eexists. split; [done|].
  pose proof (lookup_lt_Some _ _ _ Hi) as Hli.
  pose proof (lookup_lt_Some _ _ _ Hj) as Hlj.
  split; [by apply Permutation_insert_swap|]. split; [|split].
  - destruct (decide (d = 0)) as [->|Hd].
    + rewrite Nat.add_0_r in *. rewrite list_lookup_insert_eq by (by rewrite length_insert).
      congruence.
    + rewrite list_lookup_insert_ne by lia. by apply list_lookup_insert_eq.
  - intros j Hji. rewrite !list_lookup_insert_ne by lia. done.
  - rewrite drop_insert_ge by lia. rewrite drop_insert_ge by lia.
    replace (i + d - i) with d by lia. replace (i - i) with 0 by lia.
    apply Permutation_insert_swap; rewrite lookup_drop; [by rewrite Nat.add_0_r|done].
Qed.

Lemma in_range_Permutation n es es' : es' ≡ₚ es → in_range n es → in_range n es'.
Proof. intros Hp Hr e He. apply Hr. by rewrite <- Hp. Qed.

(** On a graph that is connected once the subsets are contracted, the loop
    reaches any target between 1 and the current number of subsets and
    never runs off the edge vector. *)
Lemma contraction_loop_spec n k : ∀ m1 es start uf mt,
  wf n uf → 1 ≤ n → in_range n es → start + m1 = length es →
  connected_modulo n uf (drop start es) →
  1 ≤ k ≤ UnionFind.nb_subsets uf →
  ∃ es' start' uf' mt',
    contraction_loop m1 k es start uf mt = Some (es', start', uf', mt') ∧
    wf n uf' ∧ UnionFind.nb_subsets uf' = k ∧
    es' ≡ₚ es ∧ start ≤ start' ≤ length es ∧
    (∀ i, i < start → es' !! i = es !! i) ∧
    (∀ a b, same_subset uf a b → same_subset uf' a b) ∧
    (∀ i e, start ≤ i < start' → es' !! i = Some e →
            same_subset uf' (Edge.tail e) (Edge.head e)) ∧
    connected_modulo n uf' (drop start' es').
Proof.
  induction m1 as [|m IH]; intros es start uf mt W Hn Hrange Hlen Hconn Hk.
  - assert (UnionFind.nb_subsets uf = 1) as Hone.
    { apply (all_same_one_subset n); [done..|]. intros u v Hu Hv.
      apply joined_no_edge. specialize (Hconn u v Hu Hv).
      by rewrite drop_ge in Hconn by lia. }
    assert (UnionFind.nb_subsets uf = k) as Hnb by lia.
    rewrite (contraction_loop_done _ _ _ _ _ _ Hnb).
    exists es, start, uf, mt. repeat split; try done; try lia.
  - destruct (decide (UnionFind.nb_subsets uf = k)) as [Hnb|Hnb].
    { rewrite (contraction_loop_done _ _ _ _ _ _ Hnb).
      exists es, start, uf, mt. repeat split; try done; try lia. }
    simpl. destruct (Nat.eqb_spec (UnionFind.nb_subsets uf) k) as [|_]; [done|].
    destruct (uniform_int m mt) as [d mt1] eqn:Hd. apply uniform_int_le in Hd.
    destruct (lookup_lt_is_Some_2 es start) as [ei Hei]; [lia|].
    destruct (lookup_lt_is_Some_2 es (start + d)) as [ej Hej]; [lia|].
    destruct (iter_swap_spec es start d ei ej Hei Hej)
      as (es1 & Hswap & Hperm1 & Hstart1 & Hpre1 & Hdrop1).
    rewrite Hswap. simpl. rewrite Hstart1. simpl.
    assert (ej ∈ es) as Hin by (by eapply list_elem_of_lookup_2).
    destruct (Hrange ej Hin) as [Ht Hh].
    destruct (merge_loop_step n uf _ _ W Ht Hh) as (uf1 & Hm & W1 & Hco1 & Hsame1 & Hnb1).
    rewrite Hm. simpl.
    pose proof (Permutation_length Hperm1) as Hlen1.
    destruct (IH es1 (S start) uf1 mt1) as
      (es' & start' & uf' & mt' & Hloop & W' & Hnb' & Hperm' & Hst' & Hpre' & Hco' & Hcons' & Hconn');
      [done|done|by eapply in_range_Permutation|lia| |lia|].
    { intros u v Hu Hv. eapply joined_mono; [exact Hco1| |exact (Hconn u v Hu Hv)].
      intros e He. rewrite <- Hdrop1 in He.
      rewrite (drop_S _ _ _ Hstart1) in He. apply elem_of_cons in He as [->|He]; auto. }
    exists es', start', uf', mt'. split; [done|]. split; [done|]. split; [done|].
    split; [by rewrite Hperm'|]. split; [lia|]. split; [|split; [by auto|split; [|done]]].
    + intros i Hi. rewrite Hpre' by lia. apply Hpre1. lia.
    + intros i e Hi He. destruct (decide (i = start)) as [->|Hne].
      * rewrite Hpre' in He by lia. assert (e = ej) as -> by congruence. auto.
      * apply (Hcons' i); [lia|done].
Qed.

(* ===================================================================== *)
(** ** Counting and copying the crossing edges *)
(* ===================================================================== *)

Lemma crossing_ext uf uf' e :
  (∀ a, root_of uf' a = root_of uf a) → crossing uf' e = crossing uf e.
Proof. intros H. unfold crossing. by rewrite !H. Qed.

Lemma count_filter_length {A} (p : A → bool) l : length (List.filter p l) = count p l.
Proof. induction l as [|a l IH]; simpl; [done|]. destruct (p a); simpl; lia. Qed.

Lemma in_range_cons n e es :
  in_range n (e :: es) → (Edge.tail e < n ∧ Edge.head e < n) ∧ in_range n es.
Proof.
  intros H. split; [apply H; left|]. intros e' He'. apply H. by right.
Qed.

Lemma in_range_drop n k es : in_range n es → in_range n (drop k es).
Proof. intros H e He. apply H. by eapply subseteq_drop. Qed.

Lemma count_if_not_connected_spec n : ∀ es uf,
  wf n uf → in_range n es →
  ∃ uf', count_if_not_connected es uf = Some (count (crossing uf) es, uf') ∧
    wf n uf' ∧ UnionFind.nb_subsets uf' = UnionFind.nb_subsets uf ∧
    (∀ a, root_of uf' a = root_of uf a).
Proof.
  induction es as [|e es IH]; intros uf W Hr.
  - exists uf. simpl. done.
  - apply in_range_cons in Hr as [[Ht Hh] Hr]. simpl.
    destruct (connected_loop_step n uf _ _ W Ht Hh) as (uf1 & Hc & W1 & Hnb1 & Hroot1).
    rewrite Hc. simpl.
    destruct (IH uf1 W1 Hr) as (uf2 & Hcount & W2 & Hnb2 & Hroot2).
    rewrite Hcount. simpl. exists uf2.
    split; [|split; [done|split; [congruence|intros a; by rewrite Hroot2]]].
    rewrite (count_ext (crossing uf1) (crossing uf)) by (intros; by apply crossing_ext).
    change (crossing uf e)
      with (bool_decide (root_of uf (Edge.tail e) ≠ root_of uf (Edge.head e))).
    by destruct (bool_decide (root_of uf (Edge.tail e) ≠ root_of uf (Edge.head e))).
Qed.

Lemma copy_if_not_connected_spec n : ∀ es uf,
  wf n uf → in_range n es →
  ∃ uf', copy_if_not_connected es uf = Some (List.filter (crossing uf) es, uf') ∧
    wf n uf' ∧ UnionFind.nb_subsets uf' = UnionFind.nb_subsets uf ∧
    (∀ a, root_of uf' a = root_of uf a).
Proof.
  induction es as [|e es IH]; intros uf W Hr.
  - exists uf. simpl. done.
  - apply in_range_cons in Hr as [[Ht Hh] Hr]. simpl.
    destruct (connected_loop_step n uf _ _ W Ht Hh) as (uf1 & Hc & W1 & Hnb1 & Hroot1).
    rewrite Hc. simpl.
    destruct (IH uf1 W1 Hr) as (uf2 & Hcopy & W2 & Hnb2 & Hroot2).
    rewrite Hcopy. simpl. exists uf2.
    split; [|split; [done|split; [congruence|intros a; by rewrite Hroot2]]].
    assert (List.filter (crossing uf1) es = List.filter (crossing uf) es) as ->.
    { apply filter_ext. intros; by apply crossing_ext. }
    change (crossing uf e)
      with (bool_decide (root_of uf (Edge.tail e) ≠ root_of uf (Edge.head e))).
    by destruct (bool_decide (root_of uf (Edge.tail e) ≠ root_of uf (Edge.head e))).
Qed.

Lemma same_subset_ext uf uf' a b :
  (∀ z, root_of uf' z = root_of uf z) → same_subset uf a b → same_subset uf' a b.
Proof. intros H (r & ? & ?). exists r. by rewrite !H. Qed.

(** The crossing edges of the whole vector are those past the cursor. *)
Lemma count_crossing_unconsumed uf (es : list Edge.t) start :
  (∀ i e, i < start → es !! i = Some e →
          same_subset uf (Edge.tail e) (Edge.head e)) →
  count (crossing uf) es = count (crossing uf) (drop start es).
Proof.
  intros Hcons. rewrite <- (take_drop start es) at 1. rewrite count_app.
  rewrite count_false; [done|]. intros e [i Hi]%list_elem_of_lookup_1.
  apply lookup_take_Some in Hi as [Hi Hlt]. apply crossing_same_subset. by eapply Hcons.
Qed.

(* ===================================================================== *)
(** ** Karger's algorithm *)
(* ===================================================================== *)

Lemma same_subset_init n a : a < n → same_subset (UnionFind.init n) a a.
Proof. intros Ha. by apply (same_subset_inv _ _ _ _ a a (init_inv n)). Qed.

Lemma connected_modulo_init g :
  in_range (EdgesVectorGraph.n g) (EdgesVectorGraph.edges g) → connected_graph g →
  connected_modulo (EdgesVectorGraph.n g) (UnionFind.init (EdgesVectorGraph.n g))
                   (EdgesVectorGraph.edges g).
Proof.
  intros Hr Hc u v Hu Hv. specialize (Hc u v Hu Hv). revert Hu Hv.
  enough ((u < EdgesVectorGraph.n g ↔ v < EdgesVectorGraph.n g) ∧
          (u < EdgesVectorGraph.n g →
           joined (same_subset (UnionFind.init (EdgesVectorGraph.n g)))
                  (EdgesVectorGraph.edges g) u v)) by tauto.
  induction Hc as [a b ->|e He|a b _ IH|a b c _ IH1 _ IH2].
  - split; [done|]. intros Hb. by apply joined_same, same_subset_init.
  - destruct (Hr e He). split; [tauto|]. intros _. by apply joined_edge.
  - split; [tauto|]. intros Hb. apply joined_sym. tauto.
  - split; [tauto|]. intros Ha. destruct IH1 as [E1 J1], IH2 as [E2 J2].
    eapply joined_trans; [by apply J1|apply J2; tauto].
Qed.

Lemma wf_nb_le n uf : wf n uf → UnionFind.nb_subsets uf ≤ n.
Proof.
  intros (R & h & I). rewrite (inv_count _ _ _ _ I). unfold count_roots.
  rewrite (uf_inv_length _ _ _ _ I). etrans; [apply count_le_length|]. by rewrite length_seq.
Qed.

(** The loops keep the structure among the reachable states. *)
Lemma contraction_loop_reachable n k : ∀ m1 es start uf mt es' start' uf' mt',
  reachable n uf →
  contraction_loop m1 k es start uf mt = Some (es', start', uf', mt') →
  reachable n uf'.
Proof.
  induction m1 as [|m IH]; intros es start uf mt es' start' uf' mt' Hr Hl; simpl in Hl;
    destruct (UnionFind.nb_subsets uf =? k); try (by injection Hl as <- <- <- <-); [done|].
  destruct (uniform_int m mt) as [d mt1].
  destruct (iter_swap es start (start + d)) as [es1|]; [|done]. simpl in Hl.
  destruct (es1 !! start) as [e|]; [|done]. simpl in Hl.
  destruct (UnionFind.merge uf (Edge.tail e) (Edge.head e)) as [uf1|] eqn:Hm; [|done].
  simpl in Hl. eapply IH; [|exact Hl]. by eapply reachable_merge.
Qed.

Lemma connected_reachable n uf x y c uf' :
  reachable n uf → UnionFind.connected uf x y = Some (c, uf') → reachable n uf'.
Proof.
  intros Hr Hc. unfold UnionFind.connected in Hc.
  destruct (UnionFind.find uf x) as [[i uf1]|] eqn:H1; [|done]. simpl in Hc.
  destruct (UnionFind.find uf1 y) as [[j uf2]|] eqn:H2; [|done]. simpl in Hc.
  injection Hc as _ <-. eapply reachable_find; [|exact H2]. by eapply reachable_find.
Qed.

Lemma count_if_not_connected_reachable n : ∀ es uf c uf',
  reachable n uf → count_if_not_connected es uf = Some (c, uf') → reachable n uf'.
Proof.
  induction es as [|e es IH]; intros uf c uf' Hr Hc; simpl in Hc; [by injection Hc as _ <-|].
  destruct (UnionFind.connected uf (Edge.tail e) (Edge.head e)) as [[b uf1]|] eqn:H1; [|done].
  simpl in Hc. destruct (count_if_not_connected es uf1) as [[k uf2]|] eqn:H2; [|done].
  simpl in Hc. injection Hc as _ <-. eapply IH; [|exact H2]. by eapply connected_reachable.
Qed.

Lemma copy_if_not_connected_reachable n : ∀ es uf out uf',
  reachable n uf → copy_if_not_connected es uf = Some (out, uf') → reachable n uf'.
Proof.
  induction es as [|e es IH]; intros uf out uf' Hr Hc; simpl in Hc; [by injection Hc as _ <-|].
  destruct (UnionFind.connected uf (Edge.tail e) (Edge.head e)) as [[b uf1]|] eqn:H1; [|done].
  simpl in Hc. destruct (copy_if_not_connected es uf1) as [[k uf2]|] eqn:H2; [|done].
  simpl in Hc. injection Hc as _ <-. eapply IH; [|exact H2]. by eapply connected_reachable.
Qed.

(** Whenever the loop returns, the vector it leaves is a rearrangement. *)
Lemma contraction_loop_Permutation k : ∀ m1 es start uf mt es' start' uf' mt',
  contraction_loop m1 k es start uf mt = Some (es', start', uf', mt') → es' ≡ₚ es.
Proof.
  induction m1 as [|m IH]; intros es start uf mt es' start' uf' mt' Hl; simpl in Hl;
    destruct (UnionFind.nb_subsets uf =? k); try (by injection Hl as <- <- <- <-); [done|].
  destruct (uniform_int m mt) as [d mt1].
  destruct (iter_swap es start (start + d)) as [es1|] eqn:Hs; [|done]. simpl in Hl.
  destruct (es1 !! start) as [e|]; [|done]. simpl in Hl.
  destruct (UnionFind.merge uf (Edge.tail e) (Edge.head e)) as [uf1|]; [|done].
  simpl in Hl. apply IH in Hl. rewrite Hl.
  unfold iter_swap in Hs. destruct (es !! start) as [ei|] eqn:Hi; [|done]. simpl in Hs.
  destruct (es !! (start + d)) as [ej|] eqn:Hj; [|done]. simpl in Hs. injection Hs as <-.
  by apply Permutation_insert_swap.
Qed.

(** [karger_union_find] on a valid graph. *)
Lemma karger_union_find_spec g mt :
  valid_graph g →
  ∃ c g' mt', karger_union_find g mt = Some (c, g', mt') ∧
    EdgesVectorGraph.n g' = EdgesVectorGraph.n g ∧
    EdgesVectorGraph.edges g' ≡ₚ EdgesVectorGraph.edges g ∧
    reachable (EdgesVectorGraph.n g) (GraphCut.uf c) ∧
    UnionFind.nb_subsets (GraphCut.uf c) = 2 ∧
    GraphCut.cut_size c = count (crossing (GraphCut.uf c)) (EdgesVectorGraph.edges g).
Proof.
  intros (Hn & Hr & Hc). destruct g as [n es]. simpl in *. unfold karger_union_find. simpl.
  destruct (contraction_loop_spec n 2 (length es) es 0 (UnionFind.init n) mt)
    as (es' & start' & uf' & mt' & Hloop & W' & Hnb' & Hperm & Hst & _ & _ & Hcons & _).
  { eexists _, _. apply init_inv. }
  { lia. } { done. } { done. }
  { by apply (connected_modulo_init (EdgesVectorGraph.mk n es)). }
  { simpl. lia. }
  rewrite Hloop. simpl.
  destruct (count_if_not_connected_spec n (drop start' es') uf' W')
    as (uf'' & Hcount & W'' & Hnb'' & Hroot).
  { apply in_range_drop. by eapply in_range_Permutation. }
  rewrite Hcount. simpl. eexists _, _, _. split; [done|]. simpl.
  split; [done|]. split; [done|]. split; [|split; [congruence|]].
  - eapply count_if_not_connected_reachable; [|exact Hcount].
    eapply contraction_loop_reachable; [|exact Hloop]. constructor.
  - rewrite <- (count_Permutation _ _ _ Hperm).
    rewrite (count_crossing_unconsumed uf'' es' start').
    + apply count_ext. intros. symmetry. by apply crossing_ext.
    + intros i e Hi He. eapply same_subset_ext; [done|]. apply (Hcons i); [lia|done].
Qed.

(* ===================================================================== *)
(** ** Sample graphs *)
(* ===================================================================== *)

Lemma hub_connected n es :
  (∀ v, v < n → joined eq es 0 v) → ∀ u v, u < n → v < n → joined eq es u v.
Proof.
  intros Hhub u v Hu Hv. eapply joined_trans; [apply joined_sym|]; by apply Hhub.
Qed.

Lemma in_range_Forall n es :
  Forall (λ e, Edge.tail e < n ∧ Edge.head e < n) es → in_range n es.
Proof.
  intros H e He. induction H as [|a l Ha _ IH]; [by apply elem_of_nil in He|].
  apply elem_of_cons in He as [->|He]; auto.
Qed.

Lemma valid_K4 : valid_graph K4.
Proof.
  split; [simpl; lia|]. split; [apply in_range_Forall; repeat constructor; simpl; lia|].
  unfold connected_graph. apply hub_connected. intros v Hv. simpl in Hv.
  destruct v as [|[|[|[|v]]]]; [by apply joined_same|edge_step 0 1|edge_step 0 2|edge_step 0 3|lia].
Qed.

Lemma valid_G5 : valid_graph G5.
Proof.
  split; [simpl; lia|]. split; [apply in_range_Forall; repeat constructor; simpl; lia|].
  unfold connected_graph. apply hub_connected. intros v Hv. simpl in Hv.
  assert (joined eq (EdgesVectorGraph.edges G5) 0 1) as H1 by edge_step 0 1.
  assert (joined eq (EdgesVectorGraph.edges G5) 0 3) as H3
    by (eapply joined_trans; [exact H1|edge_step 1 3]).
  destruct v as [|[|[|[|[|v]]]]]; [by apply joined_same|done| |done| |lia].
  - eapply joined_trans; [exact H3|edge_step 3 2].
  - eapply joined_trans; [exact H1|edge_step 1 4].
Qed.


(* ===================================================================== *)
(** ** Claims on the contraction loop and on Karger's algorithm *)
(* ===================================================================== *)





(* ===================================================================== *)
(** ** The split target of Karger-Stein *)
(* ===================================================================== *)


(** Rounding moves [x] by less than one unit in the last place, which is at
    most [x / 2^52]. *)
Lemma round_double_bounds x :
  (x ≤ round_double x + x / 2 ^ 52 ∧ round_double x ≤ x + x / 2 ^ 52)%N.
Proof.
  unfold round_double.
  destruct (N.ltb_spec (N.log2 x) 53) as [Hb|Hb]; [generalize (x / 2 ^ 52)%N; lia|].
  assert (0 < x)%N as Hx.
  { destruct (N.eq_0_gt_0_cases x) as [->|]; [|done]. simpl in Hb. lia. }
  destruct (N.log2_spec x Hx) as [Hlo _].
  set (s := (N.log2 x - 52)%N) in *.
  replace (N.log2 x) with (52 + s)%N in Hlo by lia.
  rewrite N.pow_add_r in Hlo.
  rewrite !N.shiftl_mul_pow2, N.shiftr_div_pow2, N.land_ones.
  pose proof (N.div_mod x (2 ^ s)%N ltac:(apply N.pow_nonzero; lia)) as Hdm.
  pose proof (N.mod_lt x (2 ^ s)%N ltac:(apply N.pow_nonzero; lia)) as Hr.
  assert (2 ^ s ≤ x / 2 ^ 52)%N as Hp by (by apply N.div_le_lower_bound).
  generalize dependent (2 ^ s)%N. intros p.
  generalize (x / 2 ^ 52)%N (x / p)%N (x mod p)%N (1 * 2 ^ (s - 1))%N.
  intros e q r half. intros. destruct (_ || _); nia.
Qed.

(** [std::ceil] of [p * 2^-53]. *)
Lemma ceil_shift_spec p :
  let c := N.shiftr (p + N.ones 53) 53 in
  (p ≤ c * 2 ^ 53 ∧ c * 2 ^ 53 < p + 2 ^ 53)%N.
Proof.
  intros c. subst c. rewrite N.shiftr_div_pow2, N.ones_equiv.
  change (2 ^ 53)%N with 9007199254740992%N.
  change (N.pred 9007199254740992) with 9007199254740991%N.
  pose proof (N.div_mod (p + 9007199254740991) 9007199254740992 ltac:(done)) as Hdm.
  pose proof (N.mod_lt (p + 9007199254740991) 9007199254740992 ltac:(done)) as Hr.
  revert Hdm Hr.
  generalize ((p + 9007199254740991) / 9007199254740992)%N
             ((p + 9007199254740991) mod 9007199254740992)%N.
  intros q r. lia.
Qed.

(** Whatever the three roundings do, the target of a graph of more than 6
    components lies between 6 and [n - 1]. *)
Lemma split_target_N_range n : (7 ≤ n → 6 ≤ split_target_N n < n)%N.
Proof.
  intros Hn. unfold split_target_N, ceil_inv_sqrt2.
  pose proof (round_double_bounds n) as Hnd.
  set (nd := round_double n) in *.
  pose proof (round_double_bounds (nd * INV_SQRT_2)) as HP.
  set (P := round_double (nd * INV_SQRT_2)) in *.
  pose proof (ceil_shift_spec P) as Hc. cbv zeta in Hc.
  set (c := N.shiftr (P + N.ones 53) 53) in *.
  pose proof (round_double_bounds (1 + c)) as Ht.
  set (t := round_double (1 + c)) in *.
  unfold INV_SQRT_2 in HP.
  change (2 ^ 53)%N with 9007199254740992%N in *.
  change (2 ^ 52)%N with 4503599627370496%N in *.
  pose proof (N.Div0.mul_div_le n 4503599627370496) as Ha.
  pose proof (N.Div0.mul_div_le (nd * 6369051672525772) 4503599627370496) as He.
  pose proof (N.Div0.mul_div_le (1 + c) 4503599627370496) as Hf.
  revert Hnd HP Ht Ha He Hf.
  generalize (n / 4503599627370496)%N ((nd * 6369051672525772) / 4503599627370496)%N
             ((1 + c) / 4503599627370496)%N.
  intros a e f. intros. lia.
Qed.

Lemma split_target_bounds n : 6 < n → 6 ≤ split_target n < n.
Proof.
  intros Hn. unfold split_target.
  pose proof (split_target_N_range (N.of_nat n) ltac:(lia)). lia.
Qed.

Lemma split_target_lt n : 6 < n → 2 ≤ split_target n < n.
Proof. intros Hn. pose proof (split_target_bounds n Hn). lia. Qed.






Lemma all_from_spec p fuel i :
  all_from fuel i p = true → ∀ j, (i ≤ j < i + N.of_nat fuel)%N → p j = true.
Proof.
  revert i. induction fuel as [|fuel IH]; intros i H j Hj; [lia|].
  simpl in H. apply andb_prop in H as [Hi H].
  destruct (N.eq_dec j i) as [->|]; [done|]. apply (IH (N.succ i)); [done|lia].
Qed.

(** [split_target_N] against the binary64 floats of the kernel: the same
    value for every [n] below [2^16] and at a few larger ones, the first at
    which the product is rounded down to an integer among them. *)
Lemma split_target_N_binary64 :
  (∀ n, (n < 2 ^ 16)%N → double_agrees n = true) ∧
  Forall (λ n, double_agrees n = true)
    [131836322; 131836323; 131836324; 2147483647; 4294967295; 4294967296;
     9007199254740993; 4611686018427387903]%N.
Proof.
  split.
  - intros n Hn.
    apply (all_from_spec double_agrees (N.to_nat (2 ^ 16)) 0%N); [by vm_compute|].
    rewrite N2Nat.id. lia.
  - apply Forall_fold_right. by vm_compute.
Qed.

Lemma ks_weight_pos n : 1 ≤ ks_weight n.
Proof. unfold ks_weight. induction n; simpl; lia. Qed.

Lemma ks_weight_mono a b : a ≤ b → ks_weight a ≤ ks_weight b.
Proof. unfold ks_weight. apply Nat.pow_le_mono_r. lia. Qed.

Lemma ks_weight_split t n : t < n → 1 + 2 * ks_weight t ≤ ks_weight n.
Proof.
  intros Ht. pose proof (ks_weight_mono (S t) n Ht) as H. pose proof (ks_weight_pos t).
  unfold ks_weight in *. simpl in H. lia.
Qed.

(* ===================================================================== *)
(** ** Karger-Stein: the tasks *)
(* ===================================================================== *)

Lemma not_crossing_same_subset n uf e :
  wf n uf → Edge.tail e < n → Edge.head e < n →
  crossing uf e = false → same_subset uf (Edge.tail e) (Edge.head e).
Proof.
  intros (R & h & I) Ht Hh Hc. rewrite (crossing_inv _ _ _ _ _ I Ht Hh) in Hc.
  apply (same_subset_inv _ _ _ _ _ _ I). split; [done|]. split; [done|].
  apply negb_false_iff in Hc. by apply Nat.eqb_eq.
Qed.

Lemma connected_modulo_filter n uf es :
  wf n uf → in_range n es → connected_modulo n uf es →
  connected_modulo n uf (List.filter (crossing uf) es).
Proof.
  intros W Hr Hc u v Hu Hv. eapply joined_mono; [| |exact (Hc u v Hu Hv)]; [done|].
  intros e He. destruct (crossing uf e) eqn:E.
  - left. apply list_elem_of_In, filter_In. split; [by apply list_elem_of_In|done].
  - right. destruct (Hr e He). by eapply not_crossing_same_subset.
Qed.

Lemma in_range_filter n (p : Edge.t → bool) es : in_range n es → in_range n (List.filter p es).
Proof.
  intros Hr e He. apply Hr. apply list_elem_of_In in He. apply filter_In in He as [He _].
  by apply list_elem_of_In.
Qed.

Lemma connected_modulo_ext n uf uf' es es' :
  (∀ a, root_of uf' a = root_of uf a) → (∀ e, e ∈ es → e ∈ es') →
  connected_modulo n uf es → connected_modulo n uf' es'.
Proof.
  intros Hroot Hsub Hc u v Hu Hv. eapply joined_mono; [| |exact (Hc u v Hu Hv)].
  - intros a b. by apply same_subset_ext.
  - auto.
Qed.

(** [contract] on a task that satisfies the invariant. *)
Lemma contract_spec N graph t mt :
  task_ok N graph → 2 ≤ t ≤ ContractedGraph.n graph →
  ∃ child graph' mt',
    contract graph t mt = Some (child, graph', mt') ∧
    child_of N t graph mt child graph' mt' ∧
    task_ok N child ∧ task_ok N graph'.
Proof.
  intros [Hreach Hn Htwo Hrange Hconn] Ht. destruct graph as [n es uf]. simpl in *.
  pose proof (reachable_wf _ _ Hreach) as W. pose proof (wf_nb_le _ _ W) as Hle.
  destruct (contraction_loop_spec N t (length es) es 0 uf mt)
    as (es' & cursor & uf1 & mt' & Hloop & W1 & Hnb1 & Hperm & Hst & _ & Hco & Hcons & Hconn1);
    [done|lia|done..|lia|].
  assert (in_range N es') as Hrange' by (by eapply in_range_Permutation).
  destruct (copy_if_not_connected_spec N (drop cursor es') uf1 W1)
    as (uf2 & Hcopy & W2 & Hnb2 & Hroot2); [by apply in_range_drop|].
  assert (reachable N uf2) as Hreach2.
  { eapply copy_if_not_connected_reachable; [|exact Hcopy].
    by eapply contraction_loop_reachable. }
  assert (List.filter (crossing uf1) (drop cursor es')
          = List.filter (crossing uf2) (drop cursor es')) as Hfilter.
  { apply filter_ext. intros. symmetry. by apply crossing_ext. }
  unfold contract. simpl. rewrite Hloop. simpl. rewrite Hcopy. simpl.
  eexists _, _, _. split; [done|]. split; [|split].
  - exists es', cursor, uf1. simpl. repeat split; try done; try congruence.
    + intros a b Hab. eapply same_subset_ext; [done|]. auto.
    + intros i e Hi He. eapply same_subset_ext; [done|]. apply (Hcons i); [lia|done].
  - split; simpl; [done|congruence|lia| |].
    + by apply in_range_filter, in_range_drop.
    + rewrite Hfilter. apply connected_modulo_filter; [done|by apply in_range_drop|].
      by eapply connected_modulo_ext.
  - split; simpl; [done..|].
    eapply connected_modulo_ext; [done| |exact Hconn]. intros e He. by rewrite Hperm.
Qed.

Lemma task_ok_root g :
  valid_graph g →
  task_ok (EdgesVectorGraph.n g)
    (ContractedGraph.mk (EdgesVectorGraph.n g) (EdgesVectorGraph.edges g)
                        (UnionFind.init (EdgesVectorGraph.n g))).
Proof.
  intros (Hn & Hr & Hc). split; simpl; [apply reachable_init|done..|].
  by apply connected_modulo_init.
Qed.








(* ===================================================================== *)
(** ** Karger-Stein: the main loop *)
(* ===================================================================== *)

Lemma count_filter_irrelevant {A} (p q : A → bool) l :
  (∀ x, x ∈ l → p x = false → q x = false) → count q (List.filter p l) = count q l.
Proof.
  induction l as [|a l IH]; intros H; simpl; [done|].
  assert (count q (List.filter p l) = count q l) as IH'
    by (apply IH; intros; apply H; [by right|done]).
  destruct (p a) eqn:Hp; simpl; [by rewrite IH'|].
  rewrite (H a); [done|left|done].
Qed.

Lemma child_accounts g t parent mt child parent' mt' :
  task_ok (EdgesVectorGraph.n g) parent → accounts g parent →
  child_of (EdgesVectorGraph.n g) t parent mt child parent' mt' →
  accounts g child ∧ accounts g parent' ∧
  length (ContractedGraph.edges child)
    = count (crossing (ContractedGraph.uf child)) (EdgesVectorGraph.edges g).
Proof.
  intros Hok Hacc (es' & cursor & ufl & Hloop & Hperm & -> & Hn & Hnb & Hreach & Hroot
                   & Hco & Hcons & Hedges).
  assert (in_range (EdgesVectorGraph.n g) es') as Hrange'
    by (eapply in_range_Permutation; [done|apply (task_range _ _ Hok)]).
  assert (Hsuffix : ∀ uf', wf (EdgesVectorGraph.n g) uf' →
    (∀ a b, same_subset (ContractedGraph.uf child) a b → same_subset uf' a b) →
    count (crossing uf') (EdgesVectorGraph.edges g) = count (crossing uf') (drop cursor es')).
  { intros uf' W' Hco'. rewrite (Hacc uf' W') by auto.
    rewrite <- (count_Permutation _ _ _ Hperm). apply count_crossing_unconsumed.
    intros i e Hi He. apply Hco'. by apply (Hcons i). }
  split; [|split].
  - intros uf' W' Hco'. rewrite (Hsuffix uf' W' Hco'), Hedges.
    symmetry. apply count_filter_irrelevant. intros e He Hc.
    apply crossing_same_subset, Hco'.
    destruct (Hrange' e); [by eapply subseteq_drop|].
    eapply not_crossing_same_subset; [by apply reachable_wf|done..].
  - intros uf' W' Hco'. simpl in *. rewrite (Hacc uf' W' Hco').
    by rewrite (count_Permutation _ _ _ Hperm).
  - rewrite Hedges, count_filter_length. symmetry. apply Hsuffix; [by apply reachable_wf|done].
Qed.

Lemma ks_loop_spec g : ∀ fuel st,
  Forall (λ t, task_ok (EdgesVectorGraph.n g) t ∧ accounts g t) (graphs st) →
  best_minimum_cut st = sentinel g ∨ real_cut g (best_minimum_cut st) →
  stack_weight (graphs st) ≤ fuel →
  ∃ st', ks_loop fuel st = Some st' ∧ graphs st' = [] ∧
    input_graph st' = input_graph st ∧
    (best_minimum_cut st' = sentinel g ∨ real_cut g (best_minimum_cut st')).
Proof.
  induction fuel as [|fuel IH]; intros [input best gs mt] Hall Hbest Hw; simpl in *.
  - destruct gs as [|graph rest]; [by eexists|].
    simpl in Hw. pose proof (ks_weight_pos (ContractedGraph.n graph)). lia.
  - destruct gs as [|graph rest]; [by eexists|].
    inversion_clear Hall as [|? ? [Hok Hacc] Hrest]. simpl in Hw.
    unfold ks_step. simpl.
    destruct (Nat.leb_spec (ContractedGraph.n graph) 6) as [Hleaf|Hbig].
    + destruct (contract_spec _ graph 2 mt Hok) as (leaf & graph' & mt1 & Hc & Hch & Hokl & _);
        [pose proof (task_two _ _ Hok); lia|].
      rewrite Hc. simpl.
      destruct (child_accounts g 2 graph mt leaf graph' mt1 Hok Hacc Hch) as (_ & _ & Hlen).
      apply IH; simpl; [done| |pose proof (ks_weight_pos (ContractedGraph.n graph)); lia].
      unfold GraphCut.min. destruct (GraphCut.lt (cut leaf) best); [|done].
      right. destruct Hch as (es' & cursor & ufl & _ & _ & _ & _ & Hnb & Hreach & _).
      split; [done|]. split; done.
    + pose proof (split_target_lt _ Hbig) as Ht. cbv zeta.
      destruct (contract_spec _ graph (split_target (ContractedGraph.n graph)) mt Hok)
        as (child1 & graph1 & mt1 & Hc1 & Hch1 & Hok1 & Hok1'); [lia|].
      destruct (child_accounts g _ graph mt child1 graph1 mt1 Hok Hacc Hch1) as (Hacc1 & Hacc1' & _).
      assert (ContractedGraph.n graph1 = ContractedGraph.n graph) as Hn1.
      { destruct Hch1 as (es' & cursor & ufl & _ & _ & -> & _). done. }
      destruct (contract_spec _ graph1 (split_target (ContractedGraph.n graph)) mt1 Hok1')
        as (child2 & graph2 & mt2 & Hc2 & Hch2 & Hok2 & _); [lia|].
      destruct (child_accounts g _ graph1 mt1 child2 graph2 mt2 Hok1' Hacc1' Hch2) as (Hacc2 & _ & _).
      rewrite Hc1. simpl. rewrite Hc2. simpl.
      apply IH; simpl; [|done|].
      { apply List.Forall_cons; [done|]. by apply List.Forall_cons. }
      assert (ContractedGraph.n child1 = split_target (ContractedGraph.n graph)) as ->.
      { by destruct Hch1 as (? & ? & ? & _ & _ & _ & ? & _). }
      assert (ContractedGraph.n child2 = split_target (ContractedGraph.n graph)) as ->.
      { by destruct Hch2 as (? & ? & ? & _ & _ & _ & ? & _). }
      pose proof (ks_weight_split (split_target (ContractedGraph.n graph))
                                  (ContractedGraph.n graph) (proj2 Ht)). lia.
Qed.



(** [karger_stein_union_find] on a valid graph: it returns, the input is
    what it was, and the result is the sentinel or a cut of the input. *)
Lemma karger_stein_union_find_spec g mt :
  valid_graph g →
  ∃ c mt', karger_stein_union_find g mt = Some (c, g, mt') ∧
    (c = sentinel g ∨ real_cut g c).
Proof.
  intros Hv. unfold karger_stein_union_find.
  destruct (ks_loop_spec g (ks_weight (EdgesVectorGraph.n g)) (ks_init g mt))
    as (st' & Hl & _ & Hin & Hbest).
  - simpl. apply List.Forall_cons; [|apply List.Forall_nil].
    split; [by apply task_ok_root|]. intros uf' _ _. done.
  - by left.
  - simpl. lia.
  - rewrite Hl. simpl. rewrite Hin. simpl. eauto.
Qed.

(* ===================================================================== *)
(** ** Claims on Karger-Stein, on the cut size and on the partitions *)
(* ===================================================================== *)



(** Claim C2 fails on the code.  On the complete graph [K4], with the draws
    0 and 4 (the loop contracts the edges (0,1) and (2,3)), the only leaf
    yields a cut of size 4 with two subsets; 4 is not less than the
    sentinel's [cut_size = n = 4], so [std::min] keeps the sentinel and
    [karger_stein_union_find] returns it: a [GraphCut] whose union-find has
    no element and [nb_subsets = 0]. *)
Theorem karger_stein_returns_sentinel :
  valid_graph K4 ∧
  (∃ leaf graph' mt',
     contract (ContractedGraph.mk 4 (EdgesVectorGraph.edges K4) (UnionFind.init 4)) 2 [0; 4]
       = Some (leaf, graph', mt') ∧
     GraphCut.cut_size (cut leaf) = 4 ∧
     UnionFind.nb_subsets (GraphCut.uf (cut leaf)) = 2 ∧
     GraphCut.min (sentinel K4) (cut leaf) = sentinel K4) ∧
  karger_stein_union_find K4 [0; 4] = Some (sentinel K4, K4, []) ∧
  UnionFind.nb_subsets (GraphCut.uf (sentinel K4)) = 0.
Proof.
  split; [exact valid_K4|]. split; [|split; vm_compute; reflexivity].
  eexists _, _, _. split; [vm_compute; reflexivity|]. by vm_compute.
Qed.

(** Claim C3 fails on the code for [karger_stein_union_find].  In the run
    of claim C2 the reported [cut_size] is 4, while the returned union-find
    has no element: no edge of [K4] has its endpoints in different subsets
    of it, and [get_partitions] reads [subsets[0]] out of range. *)
Theorem karger_stein_cut_size_not_recounted :
  valid_graph K4 ∧
  ∃ c mt',
    karger_stein_union_find K4 [0; 4] = Some (c, K4, mt') ∧
    GraphCut.cut_size c = 4 ∧
    UnionFind.subsets (GraphCut.uf c) = [] ∧
    count (crossing (GraphCut.uf c)) (EdgesVectorGraph.edges K4) = 0 ∧
    GraphCut.get_partitions c = None.
Proof.
  split; [exact valid_K4|]. exists (sentinel K4), [].
  split; [vm_compute; reflexivity|]. by vm_compute.
Qed.

(** The half of claim C3 that holds: [karger_union_find] on a valid graph
    returns a cut with two subsets whose [cut_size] is at most the number
    of edges and is the number of edges of the original list with
    endpoints in different subsets. *)
Lemma karger_union_find_cut_size g mt :
  valid_graph g →
  ∃ c g' mt', karger_union_find g mt = Some (c, g', mt') ∧
    UnionFind.nb_subsets (GraphCut.uf c) = 2 ∧
    GraphCut.cut_size c ≤ length (EdgesVectorGraph.edges g) ∧
    GraphCut.cut_size c = count (crossing (GraphCut.uf c)) (EdgesVectorGraph.edges g).
Proof.
  intros Hv.
  destruct (karger_union_find_spec g mt Hv) as (c & g' & mt' & Hk & _ & _ & _ & Hnb & Hc).
  exists c, g', mt'. split; [done|]. split; [done|]. split; [|done].
  rewrite Hc. apply count_le_length.
Qed.

(** The same for [karger_stein_union_find] when it does not return the
    sentinel. *)
Lemma karger_stein_union_find_cut_size g mt :
  valid_graph g →
  ∃ c mt', karger_stein_union_find g mt = Some (c, g, mt') ∧
    (c = sentinel g ∨
     (UnionFind.nb_subsets (GraphCut.uf c) = 2 ∧
      GraphCut.cut_size c ≤ length (EdgesVectorGraph.edges g) ∧
      GraphCut.cut_size c = count (crossing (GraphCut.uf c)) (EdgesVectorGraph.edges g))).
Proof.
  intros Hv. destruct (karger_stein_union_find_spec g mt Hv) as (c & mt' & Hk & Hc).
  exists c, mt'. split; [done|]. destruct Hc as [->|(_ & Hnb & Hc)]; [by left|right].
  split; [done|]. split; [|done]. rewrite Hc. apply count_le_length.
Qed.

(** What [get_partitions] computes: the indices whose [id] field is the
    [id] field of element 0, and the others, both in increasing order. *)
Lemma partition_loop_spec s s0 : s !! 0 = Some s0 → ∀ idx P Q,
  (∀ i, i ∈ idx → i < length s) →
  GraphCut.partition_loop s idx P Q =
    Some (P ++ List.filter (λ i, match s !! i with
                                 | Some si => UnionFind.id si =? UnionFind.id s0
                                 | None => false end) idx,
          Q ++ List.filter (λ i, negb (match s !! i with
                                 | Some si => UnionFind.id si =? UnionFind.id s0
                                 | None => false end)) idx).
Proof.
  intros H0. induction idx as [|i idx IH]; intros P Q Hr; simpl.
  - by rewrite !app_nil_r.
  - destruct (lookup_lt_is_Some_2 s i) as [si Hsi]; [apply Hr; left|].
    rewrite Hsi, H0. simpl.
    assert (∀ j, j ∈ idx → j < length s) as Hr' by (intros; apply Hr; by right).
    destruct (UnionFind.id si =? UnionFind.id s0); simpl; rewrite IH by done;
      by rewrite <- app_assoc.
Qed.

(** [get_partitions] on a structure with at least one element. *)
Lemma get_partitions_by_id c s0 :
  UnionFind.subsets (GraphCut.uf c) !! 0 = Some s0 →
  let same_id i := match UnionFind.subsets (GraphCut.uf c) !! i with
                   | Some si => UnionFind.id si =? UnionFind.id s0
                   | None => false
                   end in
  let idx := seq 0 (length (UnionFind.subsets (GraphCut.uf c))) in
  GraphCut.get_partitions c
  = Some (List.filter same_id idx, List.filter (λ i, negb (same_id i)) idx).
Proof.
  intros H0 same_id idx. unfold GraphCut.get_partitions. rewrite H0. simpl.
  rewrite (partition_loop_spec _ s0 H0); [done|].
  intros i Hi. apply elem_of_seq in Hi. lia.
Qed.

(** Claim C1 fails on the code.  [karger_union_find] on the connected graph
    [G5], with every draw equal to 0, returns a cut with two subsets in
    which vertex 3 has the root of vertex 0 (its [id] field still names its
    parent 2); [get_partitions] compares the [id] fields and puts vertex 3
    in the second sequence. *)
Theorem get_partitions_misplaces_vertex :
  valid_graph G5 ∧
  ∃ c,
    karger_union_find G5 [] = Some (c, G5, []) ∧
    GraphCut.uf c = uf_chain ∧
    UnionFind.nb_subsets (GraphCut.uf c) = 2 ∧
    root_of (GraphCut.uf c) 3 = Some 0 ∧ root_of (GraphCut.uf c) 0 = Some 0 ∧
    UnionFind.subsets (GraphCut.uf c) !! 3 = Some (UnionFind.mkSubset 2 1) ∧
    GraphCut.get_partitions c = Some ([0; 1; 2], [3; 4]).
Proof.
  split; [exact valid_G5|]. exists (GraphCut.mk 1 uf_chain).
  split; [vm_compute; reflexivity|]. by vm_compute.
Qed.

(* ===================================================================== *)
(** ** More on [get_partitions] *)
(* ===================================================================== *)

Lemma StronglySorted_lt_seq a n : StronglySorted lt (seq a n).
Proof.
  revert a. induction n as [|n IH]; intros a; simpl; constructor; [apply IH|].
  apply List.Forall_forall. intros x Hx. apply in_seq in Hx. lia.
Qed.

Lemma StronglySorted_List_filter (p : nat → bool) l :
  StronglySorted lt l → StronglySorted lt (List.filter p l).
Proof.
  induction 1 as [|a l Hl IH Ha]; simpl; [constructor|].
  destruct (p a); [|done]. constructor; [done|].
  apply List.Forall_forall. intros x Hx. apply filter_In in Hx as [Hx _].
  by apply (proj1 (List.Forall_forall _ _) Ha).
Qed.

Lemma List_filter_complement {A} (p : A → bool) l :
  List.filter p l ++ List.filter (λ x, negb (p x)) l ≡ₚ l.
Proof.
  induction l as [|a l IH]; simpl; [done|]. destruct (p a); simpl.
  - by rewrite IH.
  - rewrite <- Permutation_middle. by rewrite IH.
Qed.

Lemma elem_of_List_filter {A} (p : A → bool) l x :
  x ∈ List.filter p l ↔ x ∈ l ∧ p x = true.
Proof. rewrite !list_elem_of_In. apply filter_In. Qed.

(** Extra X1.  On a union-find without element [get_partitions] reads
    [subsets[0]] out of range.  Otherwise, whatever the [id] fields are, it
    returns two increasing sequences without a common element, which
    together hold every index below the number of elements exactly once,
    and the first one holds vertex 0. *)
Theorem get_partitions_structure c :
  match UnionFind.subsets (GraphCut.uf c) with
  | [] => GraphCut.get_partitions c = None
  | _ :: _ =>
      ∃ P Q, GraphCut.get_partitions c = Some (P, Q) ∧
        StronglySorted lt P ∧ StronglySorted lt Q ∧
        (∀ i, i ∈ P → i ∉ Q) ∧
        P ++ Q ≡ₚ seq 0 (length (UnionFind.subsets (GraphCut.uf c))) ∧
        length P + length Q = length (UnionFind.subsets (GraphCut.uf c)) ∧
        0 ∈ P
  end.
Proof.
  destruct (UnionFind.subsets (GraphCut.uf c)) as [|s0 s] eqn:Hs.
  { unfold GraphCut.get_partitions. by rewrite Hs. }
  assert (UnionFind.subsets (GraphCut.uf c) !! 0 = Some s0) as H0 by (by rewrite Hs).
  pose proof (get_partitions_by_id c s0 H0) as Hg. cbv zeta in Hg. rewrite Hs in Hg.
  eexists _, _. split; [exact Hg|].
  split; [apply StronglySorted_List_filter, StronglySorted_lt_seq|].
  split; [apply StronglySorted_List_filter, StronglySorted_lt_seq|].
  split; [|split; [apply List_filter_complement|split]].
  - intros i [_ Hi]%elem_of_List_filter [_ Hi']%elem_of_List_filter.
    rewrite Hi in Hi'. done.
  - rewrite <- length_app, List_filter_complement. apply length_seq.
  - apply elem_of_List_filter. split; [simpl; left|]. simpl. apply Nat.eqb_refl.
Qed.

Lemma flat_id_is_rep n uf R h i sb :
  uf_inv n uf R h → flat (UnionFind.subsets uf) →
  UnionFind.subsets uf !! i = Some sb → UnionFind.id sb = R i.
Proof.
  intros I Hflat Hi. pose proof (inv_forest _ _ _ _ I) as F.
  destruct (forest_step _ _ _ _ F _ _ Hi) as (_ & HR & _ & _).
  apply Hflat in Hi. apply is_root_true in Hi as (sr & Hsr & Hid).
  rewrite <- HR. symmetry. by apply (root_rep _ _ _ _ F _ _ Hsr).
Qed.

(** Extra X2.  In a reachable state in which every [id] field names a root
    (every path is compressed), [get_partitions] is right: a vertex is in
    the first sequence exactly when its root is the root of vertex 0, and
    in the second one otherwise. *)
Theorem get_partitions_flat n c :
  reachable n (GraphCut.uf c) → flat (UnionFind.subsets (GraphCut.uf c)) → 1 ≤ n →
  ∃ P Q, GraphCut.get_partitions c = Some (P, Q) ∧
    ∀ i, i < n →
      (i ∈ P ↔ root_of (GraphCut.uf c) i = root_of (GraphCut.uf c) 0) ∧
      (i ∈ Q ↔ root_of (GraphCut.uf c) i ≠ root_of (GraphCut.uf c) 0).
Proof.
  intros Hr Hflat Hn. destruct (reachable_wf _ _ Hr) as (R & h & I).
  pose proof (inv_forest _ _ _ _ I) as F.
  destruct (forest_lookup _ _ _ _ F 0) as [s0 H0]; [lia|].
  pose proof (get_partitions_by_id c s0 H0) as Hg. cbv zeta in Hg.
  eexists _, _. split; [exact Hg|]. intros i Hi.
  destruct (forest_lookup _ _ _ _ F i Hi) as [si Hsi].
  rewrite !elem_of_List_filter, Hsi, elem_of_seq, (uf_inv_length _ _ _ _ I).
  rewrite (flat_id_is_rep _ _ _ _ _ _ I Hflat Hsi), (flat_id_is_rep _ _ _ _ _ _ I Hflat H0).
  rewrite !(root_of_inv _ _ _ _ _ I) by lia.
  destruct (Nat.eqb_spec (R i) (R 0)) as [E|E]; simpl.
  - rewrite E. intuition (done || lia || congruence).
  - intuition (done || lia || congruence).
Qed.

Lemma reachable_pairs : reachable 4 uf_pairs.
Proof.
  pose (U := UnionFind.mkSubset).
  apply (reachable_merge 4 (UnionFind.mk [U 0 2; U 0 1; U 2 1; U 3 1] 3) 2 3);
    [|reflexivity].
  apply (reachable_merge 4 (UnionFind.init 4) 0 1); [|reflexivity].
  apply reachable_init.
Qed.

Lemma flat_pairs : flat (UnionFind.subsets uf_pairs).
Proof.
  intros i sb Hi. destruct i as [|[|[|[|i]]]]; simpl in Hi; try done;
    injection Hi as <-; reflexivity.
Qed.

Lemma get_partitions_flat_witness :
  ∃ P Q, GraphCut.get_partitions (GraphCut.mk 4 uf_pairs) = Some (P, Q) ∧
    ∀ i, i < 4 →
      (i ∈ P ↔ root_of uf_pairs i = root_of uf_pairs 0) ∧
      (i ∈ Q ↔ root_of uf_pairs i ≠ root_of uf_pairs 0).
Proof.
  apply (get_partitions_flat 4 (GraphCut.mk 4 uf_pairs));
    [exact reachable_pairs|exact flat_pairs|lia].
Defined.

(* ===================================================================== *)
(** ** More on the union-find *)
(* ===================================================================== *)

Lemma class_size_root_pos n uf R h r sb :
  uf_inv n uf R h → UnionFind.subsets uf !! r = Some sb → UnionFind.id sb = r →
  1 ≤ class_size n R r ≤ n.
Proof.
  intros I Hr Hid. pose proof (inv_forest _ _ _ _ I) as F.
  pose proof (forest_in_range _ _ _ _ F _ _ Hr) as Hrn.
  unfold class_size. split.
  - assert (count (λ _ : nat, false) (seq 0 n) < count (λ x, R x =? r) (seq 0 n)); [|lia].
    apply count_lt with (z := r); [done| | |done].
    + apply elem_of_seq. lia.
    + apply Nat.eqb_eq. by eapply root_rep.
  - etrans; [apply count_le_length|]. by rewrite length_seq.
Qed.

(** Extra X3.  In every reachable state the [size] field of a root is the
    number of elements of its subset (between 1 and [n]), and [nb_subsets]
    is at most [n] and at least 1 when there is an element: no sequence of
    operations empties the count. *)
Theorem reachable_sizes n uf :
  reachable n uf →
  UnionFind.nb_subsets uf ≤ n ∧
  (1 ≤ n → 1 ≤ UnionFind.nb_subsets uf) ∧
  ∀ r sb, UnionFind.subsets uf !! r = Some sb → UnionFind.id sb = r →
    UnionFind.size sb = subset_size uf r ∧ 1 ≤ UnionFind.size sb ≤ n.
Proof.
  intros Hr. pose proof (reachable_wf _ _ Hr) as W. destruct W as (R & h & I).
  pose proof (inv_forest _ _ _ _ I) as F.
  split; [apply wf_nb_le; by exists R, h|]. split.
  - intros Hn. rewrite (inv_count _ _ _ _ I), (count_roots_forest _ _ _ _ F).
    assert (count (λ _ : nat, false) (seq 0 n) < count (λ x, R x =? x) (seq 0 n)); [|lia].
    apply count_lt with (z := R 0); [done| | |done].
    + apply elem_of_seq. pose proof (rep_lt _ _ _ _ F 0). lia.
    + apply Nat.eqb_eq. apply (rep_idem _ _ _ _ F). lia.
  - intros r sb Hsb Hid. rewrite (subset_size_inv _ _ _ _ _ I), (inv_sizes _ _ _ _ I _ _ Hsb Hid).
    split; [done|]. by eapply class_size_root_pos.
Qed.

Lemma reachable_sizes_witness :
  UnionFind.nb_subsets uf_chain ≤ 5 ∧
  (1 ≤ 5 → 1 ≤ UnionFind.nb_subsets uf_chain) ∧
  ∀ r sb, UnionFind.subsets uf_chain !! r = Some sb → UnionFind.id sb = r →
    UnionFind.size sb = subset_size uf_chain r ∧ 1 ≤ UnionFind.size sb ≤ 5.
Proof. apply (reachable_sizes 5 uf_chain). exact reachable_chain. Defined.

Lemma merged_eq_cases R w l a b :
  w ≠ l →
  merged R w l a = merged R w l b ↔
  R a = R b ∨ (R a = l ∧ R b = w) ∨ (R a = w ∧ R b = l).
Proof.
  intros Hwl. unfold merged.
  destruct (Nat.eqb_spec (R a) l), (Nat.eqb_spec (R b) l); intuition congruence.
Qed.

(** Extra X4.  In a reachable state, [merge(x, y)] joins exactly the subsets
    of [x] and [y]: afterwards two elements are together when they were
    together before or when one was with [x] and the other with [y]; the
    result is again reachable, and [connected(x, y)] then answers true. *)
Theorem merge_partition n uf x y :
  reachable n uf → x < n → y < n →
  ∃ uf', UnionFind.merge uf x y = Some uf' ∧ reachable n uf' ∧
    (∀ a b, same_subset uf' a b ↔
       same_subset uf a b ∨
       (same_subset uf a x ∧ same_subset uf b y) ∨
       (same_subset uf a y ∧ same_subset uf b x)) ∧
    ∃ uf'', UnionFind.connected uf' x y = Some (true, uf'').
Proof.
  intros Hr Hx Hy. destruct (reachable_wf _ _ Hr) as (R & h & I).
  destruct (decide (R x = R y)) as [E|E].
  - destruct (merge_same n R h uf x y I Hx Hy E) as (uf' & Hm & I' & _).
    exists uf'. split; [done|]. split; [by eapply reachable_merge|]. split.
    + intros a b. rewrite !(same_subset_inv _ _ _ _ _ _ I), (same_subset_inv _ _ _ _ _ _ I').
      intuition congruence.
    + destruct (connected_inv n R h uf' x y I' Hx Hy) as (uf'' & Hc & _).
      exists uf''. rewrite Hc, E, Nat.eqb_refl. done.
  - destruct (merge_diff n R h uf x y I Hx Hy E)
      as (uf' & w & l & Hm & Hwl & _ & _ & I' & _).
    assert (w ≠ l) as Hne by (destruct Hwl as [[-> ->]|[-> ->]]; congruence).
    exists uf'. split; [done|]. split; [by eapply reachable_merge|]. split.
    + intros a b. rewrite !(same_subset_inv _ _ _ _ _ _ I), (same_subset_inv _ _ _ _ _ _ I').
      rewrite (merged_eq_cases R w l a b Hne).
      destruct Hwl as [[-> ->]|[-> ->]]; intuition congruence.
    + destruct (connected_inv n _ _ uf' x y I' Hx Hy) as (uf'' & Hc & _).
      exists uf''. rewrite Hc. do 2 f_equal. apply Nat.eqb_eq.
      apply (merged_eq_cases R w l x y Hne).
      destruct Hwl as [[-> ->]|[-> ->]]; auto.
Qed.

Lemma merge_partition_witness :
  ∃ uf', UnionFind.merge uf_chain 3 4 = Some uf' ∧ reachable 5 uf' ∧
    (∀ a b, same_subset uf' a b ↔
       same_subset uf_chain a b ∨
       (same_subset uf_chain a 3 ∧ same_subset uf_chain b 4) ∨
       (same_subset uf_chain a 4 ∧ same_subset uf_chain b 3)) ∧
    ∃ uf'', UnionFind.connected uf' 3 4 = Some (true, uf'').
Proof. apply (merge_partition 5 uf_chain 3 4); [exact reachable_chain|lia|lia]. Defined.

(** Extra X5.  In a reachable state, [connected(x, y)] answers true exactly
    when [x] and [y] have the same root; it gives the same answer with its
    arguments exchanged, and it changes neither the root of any element nor
    [nb_subsets] (only paths are compressed). *)
Theorem connected_spec n uf x y :
  reachable n uf → x < n → y < n →
  ∃ b uf', UnionFind.connected uf x y = Some (b, uf') ∧
    (b = true ↔ root_of uf x = root_of uf y) ∧
    (∃ uf'', UnionFind.connected uf y x = Some (b, uf'')) ∧
    reachable n uf' ∧
    (∀ z, root_of uf' z = root_of uf z) ∧
    UnionFind.nb_subsets uf' = UnionFind.nb_subsets uf.
Proof.
  intros Hr Hx Hy. destruct (reachable_wf _ _ Hr) as (R & h & I).
  destruct (connected_inv n R h uf x y I Hx Hy) as (uf' & Hc & I' & Hnb).
  destruct (connected_inv n R h uf y x I Hy Hx) as (uf'' & Hc' & _).
  exists (R x =? R y), uf'. split; [done|]. split; [|split; [|split; [|split; [|done]]]].
  - rewrite !(root_of_inv _ _ _ _ _ I) by done. rewrite Nat.eqb_eq. split; congruence.
  - exists uf''. rewrite Hc'. do 2 f_equal. apply Nat.eqb_sym.
  - by eapply connected_reachable.
  - by eapply root_of_same_rep.
Qed.

Lemma connected_spec_witness :
  ∃ b uf', UnionFind.connected uf_chain 3 1 = Some (b, uf') ∧
    (b = true ↔ root_of uf_chain 3 = root_of uf_chain 1) ∧
    (∃ uf'', UnionFind.connected uf_chain 1 3 = Some (b, uf'')) ∧
    reachable 5 uf' ∧
    (∀ z, root_of uf' z = root_of uf_chain z) ∧
    UnionFind.nb_subsets uf' = UnionFind.nb_subsets uf_chain.
Proof. apply (connected_spec 5 uf_chain 3 1); [exact reachable_chain|lia|lia]. Defined.

(** Extra X6.  In a reachable state an argument that is not below the
    number of elements makes [find], [merge] and [connected] read outside
    the vector, whichever argument it is. *)
Theorem out_of_range_undefined n uf x y :
  reachable n uf → n ≤ x →
  UnionFind.find uf x = None ∧
  UnionFind.merge uf x y = None ∧ UnionFind.merge uf y x = None ∧
  UnionFind.connected uf x y = None ∧ UnionFind.connected uf y x = None.
Proof.
  intros Hr Hx. pose proof (reachable_wf _ _ Hr) as W.
  assert (Hfind : ∀ u, wf n u → UnionFind.find u x = None).
  { intros u (R & h & I). unfold UnionFind.find.
    rewrite find_root_out_of_range; [done|]. rewrite (uf_inv_length _ _ _ _ I). lia. }
  assert (Hsnd : ∀ i u, UnionFind.find uf y = Some (i, u) → UnionFind.find u x = None).
  { intros i u H1. apply Hfind. by destruct (find_wf _ _ _ _ _ W H1). }
  unfold UnionFind.merge, UnionFind.connected. rewrite (Hfind uf W). simpl.
  destruct (UnionFind.find uf y) as [[i uf1]|] eqn:H1; [|done].
  simpl. by rewrite (Hsnd i uf1).
Qed.

Lemma out_of_range_undefined_witness :
  UnionFind.find uf_chain 5 = None ∧
  UnionFind.merge uf_chain 5 2 = None ∧ UnionFind.merge uf_chain 2 5 = None ∧
  UnionFind.connected uf_chain 5 2 = None ∧ UnionFind.connected uf_chain 2 5 = None.
Proof. apply (out_of_range_undefined 5 uf_chain 5 2); [exact reachable_chain|lia]. Defined.

(* ===================================================================== *)
(** ** Union by size keeps the trees low *)
(* ===================================================================== *)

Lemma link_forest n R h h' s w l sw sl :
  forest n s R h →
  s !! w = Some sw → UnionFind.id sw = w →
  s !! l = Some sl → UnionFind.id sl = l → w ≠ l →
  (∀ z, z ≠ w → h' z = h z) → h w ≤ h' w → h l < h' w →
  forest n (link s w l sw sl) (merged R w l) h'.
Proof.
  intros F Hw Hidw Hl Hidl Hne Hsame Hhw Hhl.
  pose proof (forest_in_range _ _ _ _ F _ _ Hw) as Hwn.
  pose proof (root_rep _ _ _ _ F _ _ Hw Hidw) as HRw.
  pose proof (root_rep _ _ _ _ F _ _ Hl Hidl) as HRl.
  split; [unfold link; by rewrite !length_insert, (forest_length _ _ _ _ F)|].
  intros z sb Hz. unfold merged.
  destruct (decide (z = w)) as [->|Hzw]; [|destruct (decide (z = l)) as [->|Hzl]].
  - rewrite link_lookup_winner in Hz by done. injection Hz as <-. simpl.
    rewrite Hidw, HRw. destruct (Nat.eqb_spec w l); [done|]. repeat split; (done || lia).
  - rewrite link_lookup_loser in Hz by done. injection Hz as <-. simpl.
    rewrite HRw, HRl, Nat.eqb_refl. destruct (Nat.eqb_spec w l); [done|].
    repeat split; try (done || lia). intros _. rewrite (Hsame l) by done. lia.
  - rewrite link_lookup_other in Hz by done.
    destruct (forest_step _ _ _ _ F _ _ Hz) as (Hid & HR & Hroot & Hh).
    rewrite HR. split; [done|]. split; [done|]. split.
    + intros E. rewrite Hroot by done. destruct (Nat.eqb_spec z l); done.
    + intros E. specialize (Hh E). rewrite (Hsame z) by done.
      destruct (decide (UnionFind.id sb = w)) as [E'|E'].
      * rewrite E' in *. lia.
      * rewrite (Hsame _ E'). lia.
Qed.

Lemma class_size_merged_winner n R w l :
  w ≠ l → class_size n (merged R w l) w = class_size n R w + class_size n R l.
Proof.
  intros Hne. unfold class_size. apply count_or.
  - intros z _. unfold merged.
    destruct (Nat.eqb_spec (R z) l) as [E|E]; [by rewrite Nat.eqb_refl, orb_true_r|].
    by rewrite orb_false_r.
  - intros z _ E. apply Nat.eqb_eq in E. apply Nat.eqb_neq. congruence.
Qed.

Lemma class_size_merged_other n R w l r :
  r ≠ w → r ≠ l → class_size n (merged R w l) r = class_size n R r.
Proof.
  intros Hw Hl. unfold class_size. apply count_ext. intros z _. unfold merged.
  destruct (Nat.eqb_spec (R z) l) as [E|E]; [|done].
  transitivity false; [|symmetry]; apply Nat.eqb_neq; congruence.
Qed.

Lemma rank_inv_link n R rk s nb w l sw sl :
  rank_inv n (UnionFind.mk s nb) R rk →
  s !! w = Some sw → UnionFind.id sw = w →
  s !! l = Some sl → UnionFind.id sl = l → w ≠ l →
  UnionFind.size sl ≤ UnionFind.size sw →
  rank_inv n (UnionFind.mk (link s w l sw sl) (Nat.pred nb))
           (merged R w l) (ranked_up rk w l).
Proof.
  intros [I Hrk] Hw Hidw Hl Hidl Hne Hsz.
  pose proof (inv_forest _ _ _ _ I) as F. simpl in F.
  pose proof (forest_in_range _ _ _ _ F _ _ Hw) as Hwn.
  pose proof (forest_in_range _ _ _ _ F _ _ Hl) as Hln.
  pose proof (root_rep _ _ _ _ F _ _ Hw Hidw) as HRw.
  pose proof (root_rep _ _ _ _ F _ _ Hl Hidl) as HRl.
  destruct (link_inv n R rk s nb w l sw sl I Hw Hidw Hl Hidl Hne) as [[_ Hc Hs] _].
  split.
  - split; [|exact Hc|exact Hs]. simpl.
    apply (link_forest n R rk); try done.
    + intros z Hz. unfold ranked_up. by destruct (Nat.eqb_spec z w).
    + unfold ranked_up. rewrite Nat.eqb_refl. lia.
    + unfold ranked_up. rewrite Nat.eqb_refl. lia.
  - intros r Hr HRr. unfold ranked_up.
    rewrite (inv_sizes _ _ _ _ I _ _ Hw Hidw), (inv_sizes _ _ _ _ I _ _ Hl Hidl) in Hsz.
    destruct (Nat.eqb_spec r w) as [->|Hrw].
    + rewrite class_size_merged_winner by done.
      pose proof (Hrk w Hwn HRw). pose proof (Hrk l Hln HRl).
      destruct (Nat.max_spec (rk w) (S (rk l))) as [[_ ->]|[_ ->]]; [|lia].
      simpl. lia.
    + assert (r ≠ l) as Hrl.
      { intros ->. unfold merged in HRr. rewrite HRl, Nat.eqb_refl in HRr. done. }
      rewrite class_size_merged_other by done. apply Hrk; [done|].
      unfold merged in HRr. destruct (Nat.eqb_spec (R r) l); [congruence|done].
Qed.

Lemma rank_inv_merge n R rk uf x y uf' :
  rank_inv n uf R rk → UnionFind.merge uf x y = Some uf' →
  ∃ R' rk', rank_inv n uf' R' rk'.
Proof.
  intros [I Hrk] Hm.
  destruct (merge_Some_lt n uf x y uf') as [Hx Hy]; [by exists R, rk|done|].
  destruct (find_twice n R rk uf x y I Hx Hy) as (uf1 & uf2 & Hf1 & Hf2 & I2 & Hnb & Hfr).
  pose proof (inv_forest _ _ _ _ I2) as F2.
  unfold UnionFind.merge in Hm. rewrite Hf1 in Hm. simpl in Hm. rewrite Hf2 in Hm.
  simpl in Hm. destruct (Nat.eqb_spec (R x) (R y)) as [E|E].
  { injection Hm as <-. by exists R, rk. }
  destruct (rep_is_root _ _ _ _ F2 x Hx) as (si & Hsi & Hidi).
  destruct (rep_is_root _ _ _ _ F2 y Hy) as (sj & Hsj & Hidj).
  rewrite Hsi, Hsj in Hm. simpl in Hm. destruct uf2 as [s2 nb2]. simpl in *.
  destruct (Nat.ltb_spec (UnionFind.size si) (UnionFind.size sj)) as [Hlt|Hge];
    injection Hm as <-; eexists _, _.
  - apply (rank_inv_link n R rk s2 nb2 (R y) (R x) sj si (conj I2 Hrk) Hsj Hidj Hsi Hidi);
      [congruence|lia].
  - apply (rank_inv_link n R rk s2 nb2 (R x) (R y) si sj (conj I2 Hrk) Hsi Hidi Hsj Hidj);
      [congruence|lia].
Qed.

Lemma rank_inv_find n R rk uf x r uf' :
  rank_inv n uf R rk → UnionFind.find uf x = Some (r, uf') → rank_inv n uf' R rk.
Proof.
  intros [I Hrk] Hf. pose proof (find_Some_lt _ _ _ Hf) as Hx.
  rewrite (uf_inv_length _ _ _ _ I) in Hx.
  destruct (find_inv n R rk uf x I Hx) as (uf'' & Hf' & I' & _).
  rewrite Hf in Hf'. injection Hf' as -> ->. by split.
Qed.

Lemma reachable_rank_inv n uf : reachable n uf → ∃ R rk, rank_inv n uf R rk.
Proof.
  induction 1 as [|uf x r uf' _ (R & rk & IH) Hf|uf x y uf' _ (R & rk & IH) Hm].
  - exists (λ x, x), (λ _, 0). split; [apply init_inv|].
    intros r Hr _. unfold class_size. rewrite count_single by done. simpl. lia.
  - exists R, rk. by eapply rank_inv_find.
  - by eapply rank_inv_merge.
Qed.

Lemma find_root_rank n R rk s fuel : ∀ x,
  forest n s R rk → x < n → rk (R x) - rk x < fuel →
  UnionFind.find_root fuel s x = Some (R x).
Proof.
  induction fuel as [|fuel IH]; intros x F Hx Hfuel; [lia|].
  destruct (forest_lookup _ _ _ _ F x Hx) as [sb Hsb]. simpl. rewrite Hsb. simpl.
  destruct (forest_step _ _ _ _ F x sb Hsb) as (Hid & HR & Hroot & Hh).
  destruct (Nat.eqb_spec x (UnionFind.id sb)) as [Heq|Hne].
  - by rewrite Hroot.
  - rewrite <- HR. apply IH; [done..|].
    assert (h_lt : rk x < rk (UnionFind.id sb)) by (apply Hh; lia).
    destruct (rep_above _ _ _ _ F (UnionFind.id sb) Hid) as [E|E]; rewrite HR in E |- *.
    + rewrite E in Hfuel |- *. lia.
    + lia.
Qed.

(** Extra X7.  Union by size keeps every tree low: in a reachable state
    over [n] elements the root walk of [find] from any element inspects at
    most [log2 n + 1] records before it returns the root. *)
Theorem find_root_logarithmic n uf x :
  reachable n uf → x < n →
  ∃ r, root_of uf x = Some r ∧
    UnionFind.find_root (S (Nat.log2 n)) (UnionFind.subsets uf) x = Some r.
Proof.
  intros Hr Hx. destruct (reachable_rank_inv _ _ Hr) as (R & rk & I & Hrk).
  pose proof (inv_forest _ _ _ _ I) as F.
  exists (R x). split; [by eapply root_of_inv|].
  apply (find_root_rank n R rk); [done..|].
  assert (rk (R x) ≤ Nat.log2 n); [|lia].
  apply Nat.log2_le_pow2; [lia|].
  etrans; [apply Hrk; [by eapply rep_lt|by eapply rep_idem]|].
  unfold class_size. etrans; [apply count_le_length|]. by rewrite length_seq.
Qed.

Lemma find_root_logarithmic_witness :
  ∃ r, root_of uf_chain 3 = Some r ∧
    UnionFind.find_root (S (Nat.log2 5)) (UnionFind.subsets uf_chain) 3 = Some r.
Proof. apply (find_root_logarithmic 5 uf_chain 3); [exact reachable_chain|lia]. Defined.

(* ===================================================================== *)
(** ** More on the contraction loop *)
(* ===================================================================== *)

(** [merge] whenever it returns, on a well-formed structure. *)
Lemma merge_Some_spec n uf x y uf' :
  wf n uf → UnionFind.merge uf x y = Some uf' →
  wf n uf' ∧ x < n ∧ y < n ∧
  (∀ a b, same_subset uf' a b ↔
     same_subset uf a b ∨
     (same_subset uf a x ∧ same_subset uf b y) ∨
     (same_subset uf a y ∧ same_subset uf b x)) ∧
  (UnionFind.nb_subsets uf' = UnionFind.nb_subsets uf ∨
   S (UnionFind.nb_subsets uf') = UnionFind.nb_subsets uf).
Proof.
  intros W Hm. destruct (merge_Some_lt _ _ _ _ _ W Hm) as [Hx Hy].
  destruct W as (R & h & I). destruct (decide (R x = R y)) as [E|E].
  - destruct (merge_same n R h uf x y I Hx Hy E) as (uf1 & Hm1 & I' & Hnb & _).
    rewrite Hm in Hm1. injection Hm1 as <-.
    split; [by exists R, h|]. split; [done|]. split; [done|]. split; [|by left].
    intros a b. rewrite !(same_subset_inv _ _ _ _ _ _ I), (same_subset_inv _ _ _ _ _ _ I').
    intuition congruence.
  - destruct (merge_diff n R h uf x y I Hx Hy E)
      as (uf1 & w & l & Hm1 & Hwl & _ & _ & I' & Hnb & _).
    rewrite Hm in Hm1. injection Hm1 as <-.
    assert (w ≠ l) as Hne by (destruct Hwl as [[-> ->]|[-> ->]]; congruence).
    split; [by eexists _, _|]. split; [done|]. split; [done|]. split; [|by right].
    intros a b. rewrite !(same_subset_inv _ _ _ _ _ _ I), (same_subset_inv _ _ _ _ _ _ I').
    rewrite (merged_eq_cases R w l a b Hne).
    destruct Hwl as [[-> ->]|[-> ->]]; intuition congruence.
Qed.

Lemma uniform_int_engine m mt d mt' : uniform_int m mt = (d, mt') → mt' = drop 1 mt.
Proof. destruct mt as [|r mt0]; simpl; by intros [= _ <-]. Qed.

Lemma iter_swap_Some (es : list Edge.t) i j es' :
  iter_swap es i j = Some es' →
  length es' = length es ∧ i < length es ∧ j < length es ∧
  (∀ k, k ≠ i → k ≠ j → es' !! k = es !! k).
Proof.
  unfold iter_swap. intros Hs.
  destruct (es !! i) as [ei|] eqn:Hi; [|done]. simpl in Hs.
  destruct (es !! j) as [ej|] eqn:Hj; [|done]. simpl in Hs. injection Hs as <-.
  split; [by rewrite !length_insert|]. split; [by eapply lookup_lt_Some|].
  split; [by eapply lookup_lt_Some|].
  intros k Hki Hkj. by rewrite !list_lookup_insert_ne.
Qed.

Lemma same_subset_refl n uf a : wf n uf → a < n → same_subset uf a a.
Proof. intros (R & h & I) Ha. by apply (same_subset_inv _ _ _ _ a a I). Qed.

(** Everything the loop guarantees whenever it returns: the target is met,
    the prefix before the cursor it started from is untouched, the
    partition only gets coarser, every edge it passed has its endpoints
    together, the partition is included in any equivalence [P] that contains
    the initial partition and the edges passed, one raw output is used per
    edge passed, and each edge passed removes at most one subset. *)
Lemma contraction_loop_Some n k : ∀ m1 es start uf mt es' start' uf' mt',
  wf n uf →
  contraction_loop m1 k es start uf mt = Some (es', start', uf', mt') →
  wf n uf' ∧ UnionFind.nb_subsets uf' = k ∧
  start ≤ start' ≤ start + m1 ∧ length es' = length es ∧
  (∀ i, i < start → es' !! i = es !! i) ∧
  (∀ a b, same_subset uf a b → same_subset uf' a b) ∧
  (∀ i e, start ≤ i < start' → es' !! i = Some e →
          same_subset uf' (Edge.tail e) (Edge.head e)) ∧
  (∀ P : nat → nat → Prop,
     (∀ a b, P a b → P b a) → (∀ a b c, P a b → P b c → P a c) →
     (∀ a b, same_subset uf a b → P a b) →
     (∀ i e, start ≤ i < start' → es' !! i = Some e → P (Edge.tail e) (Edge.head e)) →
     ∀ a b, same_subset uf' a b → P a b) ∧
  mt' = drop (start' - start) mt ∧
  UnionFind.nb_subsets uf ≤ UnionFind.nb_subsets uf' + (start' - start) ∧
  UnionFind.nb_subsets uf' ≤ UnionFind.nb_subsets uf.
Proof.
  assert (Hdone : ∀ m1 (es : list Edge.t) start uf (mt : engine),
    wf n uf → UnionFind.nb_subsets uf = k →
    wf n uf ∧ UnionFind.nb_subsets uf = k ∧
    start ≤ start ≤ start + m1 ∧ length es = length es ∧
    (∀ i, i < start → es !! i = es !! i) ∧
    (∀ a b, same_subset uf a b → same_subset uf a b) ∧
    (∀ i (e : Edge.t), start ≤ i < start → es !! i = Some e →
            same_subset uf (Edge.tail e) (Edge.head e)) ∧
    (∀ P : nat → nat → Prop,
       (∀ a b, P a b → P b a) → (∀ a b c, P a b → P b c → P a c) →
       (∀ a b, same_subset uf a b → P a b) →
       (∀ i (e : Edge.t), start ≤ i < start → es !! i = Some e →
                          P (Edge.tail e) (Edge.head e)) →
       ∀ a b, same_subset uf a b → P a b) ∧
    mt = drop (start - start) mt ∧
    UnionFind.nb_subsets uf ≤ UnionFind.nb_subsets uf + (start - start) ∧
    UnionFind.nb_subsets uf ≤ UnionFind.nb_subsets uf).
  { intros m1 es start uf mt W Hk. rewrite Nat.sub_diag.
    repeat split; auto; try lia. }
  induction m1 as [|m IH]; intros es start uf mt es' start' uf' mt' W Hl; simpl in Hl;
    destruct (Nat.eqb_spec (UnionFind.nb_subsets uf) k) as [Hk|Hk]; try done;
    try (injection Hl as <- <- <- <-; by apply Hdone).
  destruct (uniform_int m mt) as [d mt1] eqn:Hd.
  pose proof (uniform_int_le _ _ _ _ Hd) as Hdm. apply uniform_int_engine in Hd.
  destruct (iter_swap es start (start + d)) as [es1|] eqn:Hs; [|done]. simpl in Hl.
  destruct (es1 !! start) as [e|] eqn:He; [|done]. simpl in Hl.
  destruct (UnionFind.merge uf (Edge.tail e) (Edge.head e)) as [uf1|] eqn:Hm; [|done].
  simpl in Hl.
  destruct (iter_swap_Some _ _ _ _ Hs) as (Hlen1 & Hst & _ & Hpre1).
  destruct (merge_Some_spec _ _ _ _ _ W Hm) as (W1 & Ht & Hh & Hchar & Hnb1).
  destruct (IH _ _ _ _ _ _ _ _ W1 Hl)
    as (W' & Hnb' & Hst' & Hlen' & Hpre' & Hco' & Hcons' & Hsound' & Hmt & Hnbl & Hnbu).
  assert (es' !! start = Some e) as Hes by (rewrite Hpre' by lia; done).
  assert (same_subset uf1 (Edge.tail e) (Edge.head e)) as Hjoin.
  { apply Hchar. right. left. split; by eapply same_subset_refl. }
  split; [done|]. split; [done|]. split; [lia|]. split; [congruence|].
  split; [|split; [|split; [|split; [|split; [|split; lia]]]]].
  - intros i Hi. rewrite Hpre' by lia. apply Hpre1; lia.
  - intros a b Hab. apply Hco', Hchar. by left.
  - intros i e0 Hi He0. destruct (decide (i = start)) as [->|Hne].
    + assert (e0 = e) as -> by congruence. by apply Hco'.
    + apply (Hcons' i); [lia|done].
  - intros P Hsym Htrans Hbase Hedges a b Hab.
    assert (P (Edge.tail e) (Edge.head e)) as Pe by (apply (Hedges start); [lia|done]).
    apply (Hsound' P Hsym Htrans); [| |done].
    + intros a' b' [H|[[H1 H2]|[H1 H2]]]%Hchar; [by apply Hbase|..].
      * eapply Htrans; [apply Hbase, H1|]. eapply Htrans; [exact Pe|]. apply Hsym, Hbase, H2.
      * eapply Htrans; [apply Hbase, H1|]. eapply Htrans; [apply Hsym, Pe|].
        apply Hsym, Hbase, H2.
    + intros i e0 Hi He0. apply (Hedges i); [lia|done].
  - rewrite Hmt, Hd, drop_drop. f_equal. lia.
Qed.

Lemma same_subset_sym uf a b : same_subset uf a b → same_subset uf b a.
Proof. intros (r & ? & ?). by exists r. Qed.

Lemma same_subset_trans uf a b c :
  same_subset uf a b → same_subset uf b c → same_subset uf a c.
Proof. intros (r & ? & ?) (r' & ? & ?). exists r. split; [done|]. congruence. Qed.

(** Extra X8.  Whenever the contraction loop returns, the subsets of the
    union-find it leaves are exactly the connected components of the edges
    it passed (those before the final cursor), taken over the subsets it
    started from. *)
Theorem contraction_components n uf es k mt es' cursor uf' mt' :
  reachable n uf →
  contraction_loop (length es) k es 0 uf mt = Some (es', cursor, uf', mt') →
  ∀ a b, same_subset uf' a b ↔ joined (same_subset uf) (take cursor es') a b.
Proof.
  intros Hr Hl. pose proof (reachable_wf _ _ Hr) as W.
  destruct (contraction_loop_Some n k _ _ _ _ _ _ _ _ _ W Hl)
    as (W' & _ & _ & _ & _ & Hco & Hcons & Hsound & _).
  intros a b. split.
  - apply (Hsound (joined (same_subset uf) (take cursor es'))).
    + apply joined_sym.
    + apply joined_trans.
    + apply joined_same.
    + intros i e Hi He. apply joined_edge. apply (list_elem_of_lookup_2 _ i).
      rewrite lookup_take_lt by lia. done.
  - induction 1 as [a b H|e He|a b _ IH|a b c _ IH1 _ IH2].
    + by apply Hco.
    + apply list_elem_of_lookup_1 in He as [i Hi].
      apply lookup_take_Some in Hi as [Hi Hlt]. apply (Hcons i); [lia|done].
    + by apply same_subset_sym.
    + by eapply same_subset_trans.
Qed.

Lemma contraction_components_witness :
  same_subset (UnionFind.mk [UnionFind.mkSubset 0 2; UnionFind.mkSubset 0 1;
                             UnionFind.mkSubset 2 2; UnionFind.mkSubset 2 1] 2) 2 3 ↔
  joined (same_subset (UnionFind.init 4))
    (take 2 [Edge.mk 0 1; Edge.mk 2 3; Edge.mk 0 3; Edge.mk 1 2; Edge.mk 1 3; Edge.mk 0 2])
    2 3.
Proof.
  apply (contraction_components 4 (UnionFind.init 4) (EdgesVectorGraph.edges K4) 2 [0; 4]
           _ 2 _ []).
  - apply reachable_init.
  - vm_compute. reflexivity.
Defined.











Lemma ks_loop_empty fuel st : graphs st = [] → ks_loop fuel st = Some st.
Proof. intros H. destruct fuel; simpl; by rewrite H. Qed.

Lemma contraction_loop_small n k m1 es start mt :
  n < k → contraction_loop m1 k es start (UnionFind.init n) mt = None.
Proof.
  intros Hn. destruct (contraction_loop _ _ _ _ _ _) as [[[[es' c] uf'] mt']|] eqn:Hl; [|done].
  assert (wf n (UnionFind.init n)) as W by (eexists _, _; apply init_inv).
  destruct (contraction_loop_Some _ _ _ _ _ _ _ _ _ _ _ W Hl)
    as (_ & Hnb & _ & _ & _ & _ & _ & _ & _ & _ & Hup).
  simpl in Hup. lia.
Qed.

(** Extra X11.  On a graph with fewer than two vertices neither algorithm
    is defined: the contraction towards two subsets can never stop, and
    runs off the edge vector (or reads outside the union-find). *)
Theorem fewer_than_two_vertices_undefined g mt :
  EdgesVectorGraph.n g < 2 →
  karger_union_find g mt = None ∧ karger_stein_union_find g mt = None.
Proof.
  intros Hn. split.
  - unfold karger_union_find. by rewrite contraction_loop_small.
  - unfold karger_stein_union_find.
    pose proof (ks_weight_pos (EdgesVectorGraph.n g)) as Hw.
    destruct (ks_weight (EdgesVectorGraph.n g)) as [|fuel]; [lia|].
    simpl. unfold ks_step. simpl.
    destruct (Nat.leb_spec (EdgesVectorGraph.n g) 6) as [_|]; [|lia].
    unfold contract. simpl. by rewrite contraction_loop_small.
Qed.

Lemma fewer_than_two_vertices_undefined_witness :
  karger_union_find (EdgesVectorGraph.mk 1 [Edge.mk 0 0]) [7] = None ∧
  karger_stein_union_find (EdgesVectorGraph.mk 1 [Edge.mk 0 0]) [7] = None.
Proof.
  apply (fewer_than_two_vertices_undefined (EdgesVectorGraph.mk 1 [Edge.mk 0 0]) [7]).
  simpl. lia.
Defined.

Lemma count_three (p : nat → bool) l a b c :
  NoDup l → a ∈ l → b ∈ l → c ∈ l → a ≠ b → a ≠ c → b ≠ c →
  p a = true → p b = true → p c = true → 3 ≤ count p l.
Proof.
  intros Hnd Ha Hb Hc Hab Hac Hbc Hpa Hpb Hpc.
  rewrite (count_flip p (λ x, p x && negb (x =? a)) l a); try done.
  2: { by rewrite Nat.eqb_refl, andb_false_r. }
  2: { intros x _ Hx. apply Nat.eqb_neq in Hx. by rewrite Hx, andb_true_r. }
  rewrite (count_flip _ (λ x, p x && negb (x =? a) && negb (x =? b)) l b); try done.
  2: { rewrite Hpb. simpl. apply negb_true_iff, Nat.eqb_neq. congruence. }
  2: { by rewrite Nat.eqb_refl, andb_false_r. }
  2: { intros x _ Hx. apply Nat.eqb_neq in Hx. by rewrite Hx, andb_true_r. }
  assert (count (λ _ : nat, false) l
          < count (λ x, p x && negb (x =? a) && negb (x =? b)) l); [|lia].
  apply count_lt with (z := c); [done..| |done].
  rewrite Hpc. simpl. apply andb_true_iff.
  split; apply negb_true_iff, Nat.eqb_neq; congruence.
Qed.

Lemma joined_eq_nil a b : joined eq [] a b → a = b.
Proof.
  induction 1 as [a b H|e H|a b _ IH|a b c _ IH1 _ IH2]; try congruence.
  by apply elem_of_nil in H.
Qed.

(** Extra X12.  On a graph with three vertices no two of which are joined
    by a chain of edges (more than two connected components),
    [karger_union_find] is not defined: no contraction can bring the number
    of subsets down to two and the loop runs off the edge vector. *)
Theorem karger_union_find_three_components g mt u v w :
  u < EdgesVectorGraph.n g → v < EdgesVectorGraph.n g → w < EdgesVectorGraph.n g →
  ¬ joined eq (EdgesVectorGraph.edges g) u v →
  ¬ joined eq (EdgesVectorGraph.edges g) u w →
  ¬ joined eq (EdgesVectorGraph.edges g) v w →
  karger_union_find g mt = None.
Proof.
  intros Hu Hv Hw Huv Huw Hvw. unfold karger_union_find.
  destruct (contraction_loop _ _ _ _ _ _) as [[[[es' cursor] uf'] mt']|] eqn:Hl; [|done].
  exfalso.
  assert (wf (EdgesVectorGraph.n g) (UnionFind.init (EdgesVectorGraph.n g))) as W
    by (eexists _, _; apply init_inv).
  pose proof (contraction_loop_Permutation _ _ _ _ _ _ _ _ _ _ Hl) as Hperm.
  destruct (contraction_loop_Some _ _ _ _ _ _ _ _ _ _ _ W Hl)
    as ((R & h & I) & Hnb & _ & _ & _ & _ & _ & Hsound & _).
  specialize (Hsound (joined eq (EdgesVectorGraph.edges g))
                (joined_sym _ _) (joined_trans _ _)).
  assert (Hs : ∀ a b, same_subset uf' a b → joined eq (EdgesVectorGraph.edges g) a b).
  { apply Hsound.
    - intros a b Hab.
      apply (same_subset_inv _ _ _ _ a b (init_inv (EdgesVectorGraph.n g))) in Hab
        as (_ & _ & <-). by apply joined_same.
    - intros i e _ He. apply joined_edge. rewrite <- Hperm. by eapply list_elem_of_lookup_2. }
  pose proof (inv_forest _ _ _ _ I) as F.
  assert (Hne : ∀ a b, a < EdgesVectorGraph.n g → b < EdgesVectorGraph.n g →
                 ¬ joined eq (EdgesVectorGraph.edges g) a b → R a ≠ R b).
  { intros a b Ha Hb Hj E. apply Hj, Hs. by apply (same_subset_inv _ _ _ _ a b I). }
  assert (3 ≤ UnionFind.nb_subsets uf'); [|lia].
  rewrite (inv_count _ _ _ _ I), (count_roots_forest _ _ _ _ F).
  pose proof (rep_lt _ _ _ _ F u Hu). pose proof (rep_lt _ _ _ _ F v Hv).
  pose proof (rep_lt _ _ _ _ F w Hw).
  apply (count_three _ _ (R u) (R v) (R w)).
  - apply NoDup_seq.
  - apply elem_of_seq. lia.
  - apply elem_of_seq. lia.
  - apply elem_of_seq. lia.
  - by apply Hne.
  - by apply Hne.
  - by apply Hne.
  - apply Nat.eqb_eq. by apply (rep_idem _ _ _ _ F).
  - apply Nat.eqb_eq. by apply (rep_idem _ _ _ _ F).
  - apply Nat.eqb_eq. by apply (rep_idem _ _ _ _ F).
Qed.

Lemma karger_union_find_three_components_witness :
  karger_union_find three_isolated [1; 2] = None.
Proof.
  apply (karger_union_find_three_components three_isolated [1; 2] 0 1 2);
    try (simpl; lia); intros H%joined_eq_nil; lia.
Defined.

(* ===================================================================== *)
(** ** More on Karger-Stein and on the repetitions of [main] *)
(* ===================================================================== *)

Lemma count_copy_agree : ∀ es uf,
  count_if_not_connected es uf
  = (λ '(out, uf'), (length out, uf')) <$> copy_if_not_connected es uf.
Proof.
  induction es as [|e es IH]; intros uf; simpl; [done|].
  destruct (UnionFind.connected uf (Edge.tail e) (Edge.head e)) as [[b uf1]|]; [|done].
  simpl. rewrite IH. destruct (copy_if_not_connected es uf1) as [[out uf2]|]; [|done].
  simpl. by destruct b.
Qed.

(** Extra X13.  On a graph of at most 6 vertices [karger_stein_union_find]
    is one run of Karger's contraction: it returns [std::min] of the
    sentinel and of the cut [karger_union_find] returns with the same
    engine, it leaves the engine in the same state, and it is undefined
    exactly when [karger_union_find] is. *)
Theorem karger_stein_small_graph g mt :
  EdgesVectorGraph.n g ≤ 6 →
  karger_stein_union_find g mt
  = '(c, _, mt') ← karger_union_find g mt;
    Some (GraphCut.min (sentinel g) c, g, mt').
Proof.
  intros Hn. unfold karger_stein_union_find, karger_union_find.
  pose proof (ks_weight_pos (EdgesVectorGraph.n g)) as Hw.
  destruct (ks_weight (EdgesVectorGraph.n g)) as [|fuel]; [lia|].
  simpl. unfold ks_step. simpl.
  destruct (Nat.leb_spec (EdgesVectorGraph.n g) 6) as [_|]; [|lia].
  unfold contract. simpl.
  destruct (contraction_loop _ _ _ _ _ _) as [[[[es' cursor] uf'] mt']|]; [|done].
  simpl. rewrite count_copy_agree.
  destruct (copy_if_not_connected _ _) as [[out uf'']|]; [|done].
  simpl. by rewrite ks_loop_empty.
Qed.

Lemma karger_stein_small_graph_witness :
  karger_stein_union_find K4 [0; 4]
  = '(c, _, mt') ← karger_union_find K4 [0; 4];
    Some (GraphCut.min (sentinel K4) c, K4, mt').
Proof. apply (karger_stein_small_graph K4 [0; 4]). simpl. lia. Defined.












(** Extra X16.  For a task of more than 6 components the target [t] that
    line 147 computes in double precision lies between 6 and [n - 1]: the
    children are strictly smaller than their parent, and never smaller than
    the largest leaf. *)
Theorem split_target_range n : 6 < n → 6 ≤ split_target n < n.
Proof. apply split_target_bounds. Qed.

Lemma split_target_range_witness : 6 ≤ split_target 8 < 8.
Proof. apply (split_target_range 8). lia. Defined.
